(** * zd: a Mach-O header and load-command decoder (src/main.c)

    A shallow embedding of [parse_file] and [pretty_print] of src/main.c,
    and the properties of the decoder stated in the specification.

    The input stream is a byte list with a cursor; [fread] and [fseek] act
    on it as the C library does, and every call is recorded in a log, so
    that statements about which bytes the decoder consumes can be made.
    Multi-byte integers are read in little-endian order, the byte order of
    the hosts Mach-O 64-bit files are produced on. *)

From Stdlib Require Import String Ascii Strings.Byte.
From Stdlib Require Import ZArith List Lia Bool.
Import ListNotations.
Open Scope Z_scope.

(** ** Bytes and little-endian integers *)

Definition byte_to_Z (b : byte) : Z := Z.of_N (Byte.to_N b).

Definition byte_of_Z (z : Z) : byte :=
  match Byte.of_N (Z.to_N (z mod 256)) with
  | Some b => b
  | None => x00
  end.

(** The value of a [uintN_t] object whose bytes in memory are [bs]. *)
Fixpoint le_to_Z (bs : list byte) : Z :=
  match bs with
  | [] => 0
  | b :: rest => byte_to_Z b + 256 * le_to_Z rest
  end.

(** The [n] bytes in memory of an [n]-byte unsigned integer of value [z]. *)
Fixpoint Z_to_le (n : nat) (z : Z) : list byte :=
  match n with
  | O => []
  | S n' => byte_of_Z z :: Z_to_le n' (z / 256)
  end.

Definition u8_range (z : Z) : Prop := 0 <= z < 2 ^ 8.
Definition u16_range (z : Z) : Prop := 0 <= z < 2 ^ 16.
Definition u32_range (z : Z) : Prop := 0 <= z < 2 ^ 32.
Definition u64_range (z : Z) : Prop := 0 <= z < 2 ^ 64.

(** ** The structures of main.c

    Pointer members ([sections], [string_table], [symbol_table],
    [commands]) are modelled by the array they point to.  The two pointers
    of [symtab_command_t] are assigned, if at all, by the second loop of
    [parse_file] only: they are options, [None] standing for a pointer
    member that was never assigned. *)

Record nlist_64_t := {
  n_strx : Z;
  n_type : Z;
  n_sect : Z;
  n_desc : Z;
  n_value : Z
}.

Record dysymtab_command_t := {
  ilocalsym : Z;
  nlocalsym : Z;
  iextdefsym : Z;
  nextdefsym : Z;
  iundefsym : Z;
  nundefsym : Z;
  tocoff : Z;
  ntoc : Z;
  modtaboff : Z;
  nmodtab : Z;
  extrefsymoff : Z;
  nextrefsyms : Z;
  indirectsymoff : Z;
  nindirectsyms : Z;
  extreloff : Z;
  nextrel : Z;
  locreloff : Z;
  nlocrel : Z
}.

Record symtab_command_t := {
  symoff : Z;
  nsyms : Z;
  stroff : Z;
  strsize : Z;
  string_table : option (list byte);
  symbol_table : option (list nlist_64_t)
}.

Record section_64_t := {
  sectname : list byte;
  sect_segname : list byte;
  addr : Z;
  size : Z;
  offset : Z;
  align : Z;
  reloff : Z;
  nreloc : Z;
  sect_flags : Z;
  reserved1 : Z;
  reserved2 : Z;
  reserved3 : Z
}.

(** [maxprot] and [initprot] have type [vm_prot_t], a 32-bit [int]; the
    model keeps the 32-bit pattern, which is what [%08x] prints. *)
Record segment_command_64_t := {
  segname : list byte;
  vmaddr : Z;
  vmsize : Z;
  fileoff : Z;
  filesize : Z;
  maxprot : Z;
  initprot : Z;
  nsects : Z;
  seg_flags : Z;
  sections : list section_64_t
}.

Record build_version_command_t := {
  platform : Z;
  minos : Z;
  sdk : Z;
  ntools : Z
}.

(** The anonymous union of [load_command_t]. *)
Inductive command_union :=
| cmd_seg_64 (s : segment_command_64_t)
| cmd_build_version (b : build_version_command_t)
| cmd_symtab (s : symtab_command_t)
| cmd_dysymtab (d : dysymtab_command_t).

Record load_command_t := {
  cmd : Z;
  cmd_size : Z;
  body : command_union
}.

Record mach_object_file_t := {
  magic : Z;
  cpu_type : Z;
  cpu_subtype : Z;
  file_type : Z;
  number_of_load_commands : Z;
  size_of_load_commands : Z;
  flags : Z;
  reserved : Z;
  commands : list load_command_t
}.

(** ** The stream *)

Inductive io_event :=
| io_read (requested : nat)
| io_seek (target : nat).

(** [log] holds the calls made so far, the most recent first. *)
Record FILE := {
  contents : list byte;
  pos : nat;
  log : list io_event
}.

Definition fopen (data : list byte) : FILE :=
  {| contents := data; pos := 0; log := [] |}.

(** A run either goes on with a value, or has left through
    [exit(EXIT_FAILURE)] after printing the tag it met. *)
Inductive outcome (A : Type) :=
| Done (a : A) (f : FILE)
| Exit (tag : Z) (f : FILE).
Arguments Done {A} a f.
Arguments Exit {A} tag f.

Definition io (A : Type) : Type := FILE -> outcome A.

Definition ret {A} (a : A) : io A := fun f => Done a f.

Definition bind {A B} (m : io A) (k : A -> io B) : io B :=
  fun f =>
    match m f with
    | Done a f' => k a f'
    | Exit tag f' => Exit tag f'
    end.

Notation "x <- m ;; k" := (bind m (fun x => k))
  (at level 61, m at next level, right associativity).

Definition exit_failure {A} (tag : Z) : io A := fun f => Exit tag f.

(** [fread] of [n] bytes: the bytes that are there, at most [n]; the
    cursor moves past them.  The return value of [fread] is never looked
    at in main.c. *)
Definition fread (n : nat) : io (list byte) :=
  fun f =>
    let got := firstn n (skipn (pos f) (contents f)) in
    Done got {| contents := contents f;
                pos := (pos f + length got)%nat;
                log := io_read n :: log f |}.

(** [fseek (file, off, SEEK_SET)]: any offset is accepted, also one past
    the end. *)
Definition fseek (off : nat) : io unit :=
  fun f =>
    Done tt {| contents := contents f; pos := off; log := io_seek off :: log f |}.

(** What the destination of an [fread] holds afterwards: the bytes read,
    then what was there before.  (Of an element read in part C only
    says that its value is indeterminate; the bytes that came are
    copied by the usual C libraries, and that is what the model takes.) *)
Definition store (old got : list byte) : list byte :=
  got ++ skipn (length got) old.

Definition hex_digit (d : Z) : ascii :=
  match d with
  | 0 => "0" | 1 => "1" | 2 => "2" | 3 => "3" | 4 => "4" | 5 => "5"
  | 6 => "6" | 7 => "7" | 8 => "8" | 9 => "9" | 10 => "a" | 11 => "b"
  | 12 => "c" | 13 => "d" | 14 => "e" | _ => "f"
  end%char.

(** [%0nx] of a value below [16 ^ n]. *)
Fixpoint hex (n : nat) (z : Z) : string :=
  match n with
  | O => EmptyString
  | S n' => String (hex_digit ((z / 16 ^ Z.of_nat n') mod 16)) (hex n' z)
  end.

(** [%s] of a [char *]: the bytes up to the first NUL. *)
Fixpoint c_string (mem : list byte) : string :=
  match mem with
  | [] => EmptyString
  | b :: rest =>
      if Byte.eqb b x00 then EmptyString
      else String (ascii_of_byte b) (c_string rest)
  end.

Definition nl : string := String "010"%char EmptyString.
Definition tab : string := String "009"%char EmptyString.
Definition dquote : string := String "034"%char EmptyString.

(** ** The layout of the file

    [encode_*] writes a structure as the bytes Mach-O lays it out in: the
    members in declaration order, little-endian, no padding.  It is the
    writer the decoder is checked against; the pointer members are not
    part of a record in the file. *)

Definition encode_section (s : section_64_t) : list byte :=
  sectname s ++ sect_segname s ++ Z_to_le 8 (addr s) ++ Z_to_le 8 (size s) ++
  Z_to_le 4 (offset s) ++ Z_to_le 4 (align s) ++ Z_to_le 4 (reloff s) ++
  Z_to_le 4 (nreloc s) ++ Z_to_le 4 (sect_flags s) ++
  Z_to_le 4 (reserved1 s) ++ Z_to_le 4 (reserved2 s) ++
  Z_to_le 4 (reserved3 s).

Definition encode_sections (ss : list section_64_t) : list byte :=
  flat_map encode_section ss.

Definition encode_segment_fields (s : segment_command_64_t) : list byte :=
  segname s ++ Z_to_le 8 (vmaddr s) ++ Z_to_le 8 (vmsize s) ++
  Z_to_le 8 (fileoff s) ++ Z_to_le 8 (filesize s) ++ Z_to_le 4 (maxprot s) ++
  Z_to_le 4 (initprot s) ++ Z_to_le 4 (nsects s) ++ Z_to_le 4 (seg_flags s).

Definition encode_segment (s : segment_command_64_t) : list byte :=
  encode_segment_fields s ++ encode_sections (sections s).

Definition encode_dysymtab (d : dysymtab_command_t) : list byte :=
  Z_to_le 4 (ilocalsym d) ++ Z_to_le 4 (nlocalsym d) ++
  Z_to_le 4 (iextdefsym d) ++ Z_to_le 4 (nextdefsym d) ++
  Z_to_le 4 (iundefsym d) ++ Z_to_le 4 (nundefsym d) ++
  Z_to_le 4 (tocoff d) ++ Z_to_le 4 (ntoc d) ++ Z_to_le 4 (modtaboff d) ++
  Z_to_le 4 (nmodtab d) ++ Z_to_le 4 (extrefsymoff d) ++
  Z_to_le 4 (nextrefsyms d) ++ Z_to_le 4 (indirectsymoff d) ++
  Z_to_le 4 (nindirectsyms d) ++ Z_to_le 4 (extreloff d) ++
  Z_to_le 4 (nextrel d) ++ Z_to_le 4 (locreloff d) ++ Z_to_le 4 (nlocrel d).

Definition encode_symtab (s : symtab_command_t) : list byte :=
  Z_to_le 4 (symoff s) ++ Z_to_le 4 (nsyms s) ++ Z_to_le 4 (stroff s) ++
  Z_to_le 4 (strsize s).

Definition encode_build_version (b : build_version_command_t) : list byte :=
  Z_to_le 4 (platform b) ++ Z_to_le 4 (minos b) ++ Z_to_le 4 (sdk b) ++
  Z_to_le 4 (ntools b).

Definition encode_body (u : command_union) : list byte :=
  match u with
  | cmd_seg_64 s => encode_segment s
  | cmd_build_version b => encode_build_version b
  | cmd_symtab s => encode_symtab s
  | cmd_dysymtab d => encode_dysymtab d
  end.

Definition encode_command (c : load_command_t) : list byte :=
  Z_to_le 4 (cmd c) ++ Z_to_le 4 (cmd_size c) ++ encode_body (body c).

Definition encode_commands (cs : list load_command_t) : list byte :=
  flat_map encode_command cs.

Definition encode_header (o : mach_object_file_t) : list byte :=
  Z_to_le 4 (magic o) ++ Z_to_le 4 (cpu_type o) ++ Z_to_le 4 (cpu_subtype o) ++
  Z_to_le 4 (file_type o) ++ Z_to_le 4 (number_of_load_commands o) ++
  Z_to_le 4 (size_of_load_commands o) ++ Z_to_le 4 (flags o) ++
  Z_to_le 4 (reserved o).

Definition encode_entry (e : nlist_64_t) : list byte :=
  Z_to_le 4 (n_strx e) ++ Z_to_le 1 (n_type e) ++ Z_to_le 1 (n_sect e) ++
  Z_to_le 2 (n_desc e) ++ Z_to_le 8 (n_value e).

(** The values a structure of the given type can hold. *)

Definition section_ok (s : section_64_t) : Prop :=
  length (sectname s) = 16%nat /\ length (sect_segname s) = 16%nat /\
  u64_range (addr s) /\ u64_range (size s) /\ u32_range (offset s) /\
  u32_range (align s) /\ u32_range (reloff s) /\ u32_range (nreloc s) /\
  u32_range (sect_flags s) /\ u32_range (reserved1 s) /\
  u32_range (reserved2 s) /\ u32_range (reserved3 s).

Definition segment_ok (s : segment_command_64_t) : Prop :=
  length (segname s) = 16%nat /\ u64_range (vmaddr s) /\ u64_range (vmsize s) /\
  u64_range (fileoff s) /\ u64_range (filesize s) /\ u32_range (maxprot s) /\
  u32_range (initprot s) /\ u32_range (nsects s) /\ u32_range (seg_flags s) /\
  Forall section_ok (sections s).

Definition dysymtab_ok (d : dysymtab_command_t) : Prop :=
  u32_range (ilocalsym d) /\ u32_range (nlocalsym d) /\
  u32_range (iextdefsym d) /\ u32_range (nextdefsym d) /\
  u32_range (iundefsym d) /\ u32_range (nundefsym d) /\
  u32_range (tocoff d) /\ u32_range (ntoc d) /\ u32_range (modtaboff d) /\
  u32_range (nmodtab d) /\ u32_range (extrefsymoff d) /\
  u32_range (nextrefsyms d) /\ u32_range (indirectsymoff d) /\
  u32_range (nindirectsyms d) /\ u32_range (extreloff d) /\
  u32_range (nextrel d) /\ u32_range (locreloff d) /\ u32_range (nlocrel d).

Definition symtab_ok (s : symtab_command_t) : Prop :=
  u32_range (symoff s) /\ u32_range (nsyms s) /\ u32_range (stroff s) /\
  u32_range (strsize s).

Definition build_version_ok (b : build_version_command_t) : Prop :=
  u32_range (platform b) /\ u32_range (minos b) /\ u32_range (sdk b) /\
  u32_range (ntools b).

Definition entry_ok (e : nlist_64_t) : Prop :=
  u32_range (n_strx e) /\ u8_range (n_type e) /\ u8_range (n_sect e) /\
  u16_range (n_desc e) /\ u64_range (n_value e).

Definition union_ok (u : command_union) : Prop :=
  match u with
  | cmd_seg_64 s => segment_ok s
  | cmd_build_version b => build_version_ok b
  | cmd_symtab s =>
      symtab_ok s /\
      match symbol_table s with
      | Some es => Forall entry_ok es
      | None => True
      end
  | cmd_dysymtab d => dysymtab_ok d
  end.

Definition command_ok (c : load_command_t) : Prop :=
  u32_range (cmd c) /\ u32_range (cmd_size c) /\ union_ok (body c).

Definition header_ok (o : mach_object_file_t) : Prop :=
  u32_range (magic o) /\ u32_range (cpu_type o) /\ u32_range (cpu_subtype o) /\
  u32_range (file_type o) /\ u32_range (number_of_load_commands o) /\
  u32_range (size_of_load_commands o) /\ u32_range (flags o) /\
  u32_range (reserved o).

(** The symbol table pointers of a command, as [read_commands] leaves
    them. *)
Definition unresolved (c : load_command_t) : Prop :=
  match body c with
  | cmd_symtab s => string_table s = None /\ symbol_table s = None
  | _ => True
  end.

(** [c] without what the second loop of [parse_file] attaches. *)
Definition forget_symbols (c : load_command_t) : load_command_t :=
  match body c with
  | cmd_symtab s =>
      {| cmd := cmd c; cmd_size := cmd_size c;
         body := cmd_symtab
                   {| symoff := symoff s; nsyms := nsyms s; stroff := stroff s;
                      strsize := strsize s; string_table := string_table s;
                      symbol_table := None |} |}
  | _ => c
  end.

(** [c] with another declared size. *)
Definition set_cmd_size (sz : Z) (c : load_command_t) : load_command_t :=
  {| cmd := cmd c; cmd_size := sz; body := body c |}.

Section Decoder.

(** The content of automatic storage that was never written: byte [i] of
    an uninitialised local buffer.  A short [fread] into a local leaves
    such bytes in it.  In the program a local can also hold what an
    earlier iteration left at its place on the stack; the model takes
    one content for every local.  Nothing is assumed of it; where two
    runs are compared, both see the same, unless the statement gives
    each run its own. *)
Variable uninit : nat -> byte.

(** The two tags main.c takes from <mach-o/loader.h>, which is not part of
    the repository; [LC_SYMTAB] and [LC_DYSYMTAB] are defined in main.c. *)
Variable LC_SEGMENT_64 : Z.
Variable LC_BUILD_VERSION : Z.

Definition LC_SYMTAB : Z := 0x2.
Definition LC_DYSYMTAB : Z := 0xb.

Definition uninit_bytes (n : nat) : list byte := map uninit (seq 0 n).

(** A read into a local variable of [n] bytes. *)
Definition fread_local (n : nat) : io (list byte) :=
  got <- fread n ;; ret (store (uninit_bytes n) got).

(** A read into a member of the global [object_file], which has static
    storage and is all zero before [parse_file] runs. *)
Definition fread_static (n : nat) : io (list byte) :=
  got <- fread n ;; ret (store (repeat x00 n) got).

Definition read_u8 : io Z := bs <- fread_local 1 ;; ret (le_to_Z bs).
Definition read_u16 : io Z := bs <- fread_local 2 ;; ret (le_to_Z bs).
Definition read_u32 : io Z := bs <- fread_local 4 ;; ret (le_to_Z bs).
Definition read_u64 : io Z := bs <- fread_local 8 ;; ret (le_to_Z bs).
Definition read_u32_static : io Z := bs <- fread_static 4 ;; ret (le_to_Z bs).

(** Lines 171-178. *)
Definition read_header : io mach_object_file_t :=
  magic <- read_u32_static ;;
  cpu_type <- read_u32_static ;;
  cpu_subtype <- read_u32_static ;;
  file_type <- read_u32_static ;;
  number_of_load_commands <- read_u32_static ;;
  size_of_load_commands <- read_u32_static ;;
  flags <- read_u32_static ;;
  reserved <- read_u32_static ;;
  ret {| magic := magic; cpu_type := cpu_type; cpu_subtype := cpu_subtype;
         file_type := file_type;
         number_of_load_commands := number_of_load_commands;
         size_of_load_commands := size_of_load_commands;
         flags := flags; reserved := reserved; commands := [] |}.

(** Lines 215-230. *)
Definition read_section : io section_64_t :=
  sectname <- fread_local 16 ;;
  segname <- fread_local 16 ;;
  addr <- read_u64 ;;
  size <- read_u64 ;;
  offset <- read_u32 ;;
  align <- read_u32 ;;
  reloff <- read_u32 ;;
  nreloc <- read_u32 ;;
  flags <- read_u32 ;;
  reserved1 <- read_u32 ;;
  reserved2 <- read_u32 ;;
  reserved3 <- read_u32 ;;
  ret {| sectname := sectname; sect_segname := segname; addr := addr;
         size := size; offset := offset; align := align; reloff := reloff;
         nreloc := nreloc; sect_flags := flags; reserved1 := reserved1;
         reserved2 := reserved2; reserved3 := reserved3 |}.

(** The loop of lines 213-244, [n] iterations. *)
Fixpoint read_sections (n : nat) : io (list section_64_t) :=
  match n with
  | O => ret []
  | S n' =>
      s <- read_section ;;
      ss <- read_sections n' ;;
      ret (s :: ss)
  end.

(** Lines 190-244. *)
Definition read_segment : io segment_command_64_t :=
  segname <- fread_local 16 ;;
  vmaddr <- read_u64 ;;
  vmsize <- read_u64 ;;
  fileoff <- read_u64 ;;
  filesize <- read_u64 ;;
  maxprot <- read_u32 ;;
  initprot <- read_u32 ;;
  nsects <- read_u32 ;;
  flags <- read_u32 ;;
  sections <- read_sections (Z.to_nat nsects) ;;
  ret {| segname := segname; vmaddr := vmaddr; vmsize := vmsize;
         fileoff := fileoff; filesize := filesize; maxprot := maxprot;
         initprot := initprot; nsects := nsects; seg_flags := flags;
         sections := sections |}.

(** Lines 258-277. *)
Definition read_dysymtab : io dysymtab_command_t :=
  ilocalsym <- read_u32 ;;
  nlocalsym <- read_u32 ;;
  iextdefsym <- read_u32 ;;
  nextdefsym <- read_u32 ;;
  iundefsym <- read_u32 ;;
  nundefsym <- read_u32 ;;
  tocoff <- read_u32 ;;
  ntoc <- read_u32 ;;
  modtaboff <- read_u32 ;;
  nmodtab <- read_u32 ;;
  extrefsymoff <- read_u32 ;;
  nextrefsyms <- read_u32 ;;
  indirectsymoff <- read_u32 ;;
  nindirectsyms <- read_u32 ;;
  extreloff <- read_u32 ;;
  nextrel <- read_u32 ;;
  locreloff <- read_u32 ;;
  nlocrel <- read_u32 ;;
  ret {| ilocalsym := ilocalsym; nlocalsym := nlocalsym;
         iextdefsym := iextdefsym; nextdefsym := nextdefsym;
         iundefsym := iundefsym; nundefsym := nundefsym; tocoff := tocoff;
         ntoc := ntoc; modtaboff := modtaboff; nmodtab := nmodtab;
         extrefsymoff := extrefsymoff; nextrefsyms := nextrefsyms;
         indirectsymoff := indirectsymoff; nindirectsyms := nindirectsyms;
         extreloff := extreloff; nextrel := nextrel; locreloff := locreloff;
         nlocrel := nlocrel |}.

(** Lines 310-314; the two pointer members of the local are not
    assigned. *)
Definition read_symtab : io symtab_command_t :=
  symoff <- read_u32 ;;
  nsyms <- read_u32 ;;
  stroff <- read_u32 ;;
  strsize <- read_u32 ;;
  ret {| symoff := symoff; nsyms := nsyms; stroff := stroff;
         strsize := strsize; string_table := None; symbol_table := None |}.

(** Lines 333-338. *)
Definition read_build_version : io build_version_command_t :=
  platform <- read_u32 ;;
  minos <- read_u32 ;;
  sdk <- read_u32 ;;
  ntools <- read_u32 ;;
  ret {| platform := platform; minos := minos; sdk := sdk; ntools := ntools |}.

(** One iteration of the loop of lines 181-359: the tag, the size, then
    the [switch], its cases in the order of the source. *)
Definition read_command : io load_command_t :=
  cmd <- read_u32 ;;
  cmd_size <- read_u32 ;;
  if cmd =? LC_SEGMENT_64 then
    segment <- read_segment ;;
    ret {| cmd := cmd; cmd_size := cmd_size; body := cmd_seg_64 segment |}
  else if cmd =? LC_DYSYMTAB then
    dysymtab <- read_dysymtab ;;
    ret {| cmd := cmd; cmd_size := cmd_size; body := cmd_dysymtab dysymtab |}
  else if cmd =? LC_SYMTAB then
    symtab <- read_symtab ;;
    ret {| cmd := cmd; cmd_size := cmd_size; body := cmd_symtab symtab |}
  else if cmd =? LC_BUILD_VERSION then
    build_ver <- read_build_version ;;
    ret {| cmd := cmd; cmd_size := cmd_size;
           body := cmd_build_version build_ver |}
  else exit_failure cmd.

Fixpoint read_commands (n : nat) : io (list load_command_t) :=
  match n with
  | O => ret []
  | S n' =>
      c <- read_command ;;
      cs <- read_commands n' ;;
      ret (c :: cs)
  end.

(** Lines 373-381. *)
Definition read_entry : io nlist_64_t :=
  n_strx <- read_u32 ;;
  n_type <- read_u8 ;;
  n_sect <- read_u8 ;;
  n_desc <- read_u16 ;;
  n_value <- read_u64 ;;
  ret {| n_strx := n_strx; n_type := n_type; n_sect := n_sect;
         n_desc := n_desc; n_value := n_value |}.

Fixpoint read_entries (n : nat) : io (list nlist_64_t) :=
  match n with
  | O => ret []
  | S n' =>
      e <- read_entry ;;
      es <- read_entries n' ;;
      ret (e :: es)
  end.

(** Lines 365-389, for the command [c] whose tag is [LC_SYMTAB] and whose
    union member [cmd_symtab] is [st].  The string table is read into the
    buffer of the local [string_table] (here [buffer]), which is assigned
    to nothing. *)
Definition resolve_command (c : load_command_t) (st : symtab_command_t)
  : io load_command_t :=
  _ <- fseek (Z.to_nat (stroff st)) ;;
  buffer <- fread (Z.to_nat (strsize st)) ;;
  _ <- fseek (Z.to_nat (symoff st)) ;;
  entries <- read_entries (Z.to_nat (nsyms st)) ;;
  ret {| cmd := cmd c; cmd_size := cmd_size c;
         body := cmd_symtab
                   {| symoff := symoff st; nsyms := nsyms st;
                      stroff := stroff st; strsize := strsize st;
                      string_table := string_table st;
                      symbol_table := Some entries |} |}.

(** The loop of lines 361-393: the first command tagged [LC_SYMTAB] is
    resolved, then the loop is left.  A command tagged [LC_SYMTAB] whose
    union holds another member does not come out of [read_commands]
    (lemma [read_commands_tagged]); the model leaves it as it is. *)
Fixpoint resolve_symtab (cs : list load_command_t) : io (list load_command_t) :=
  match cs with
  | [] => ret []
  | c :: rest =>
      if cmd c =? LC_SYMTAB then
        match body c with
        | cmd_symtab st => c' <- resolve_command c st ;; ret (c' :: rest)
        | _ => ret (c :: rest)
        end
      else
        rest' <- resolve_symtab rest ;;
        ret (c :: rest')
  end.

Definition set_commands (o : mach_object_file_t) (cs : list load_command_t)
  : mach_object_file_t :=
  {| magic := magic o; cpu_type := cpu_type o; cpu_subtype := cpu_subtype o;
     file_type := file_type o;
     number_of_load_commands := number_of_load_commands o;
     size_of_load_commands := size_of_load_commands o;
     flags := flags o; reserved := reserved o; commands := cs |}.

Definition parse_stream : io mach_object_file_t :=
  o <- read_header ;;
  cs <- read_commands (Z.to_nat (number_of_load_commands o)) ;;
  cs' <- resolve_symtab cs ;;
  ret (set_commands o cs').

(** [parse_file] on a file that was just opened on [data]. *)
Definition parse_file (data : list byte) : outcome mach_object_file_t :=
  parse_stream (fopen data).

(** ** The report

    [pretty_print] as the list of the strings its [printf] calls write,
    one string for each call. *)

Definition line32 (label : string) (v : Z) : string :=
  (tab ++ label ++ "0x" ++ hex 8 v ++ nl)%string.

Definition line64 (label : string) (v : Z) : string :=
  (tab ++ label ++ "0x" ++ hex 16 v ++ nl)%string.

Definition tag_line (name : string) (v : Z) : string :=
  (name ++ " (0x" ++ hex 8 v ++ ")" ++ nl)%string.

(** Lines 398-407. *)
Definition print_header (o : mach_object_file_t) : list string :=
  [ ("magic                       : 0x" ++ hex 8 (magic o) ++ nl ++
     "cpu_type                    : 0x" ++ hex 8 (cpu_type o) ++ nl ++
     "cpu_subtype                 : 0x" ++ hex 8 (cpu_subtype o) ++ nl ++
     "file_type                   : 0x" ++ hex 8 (file_type o) ++ nl ++
     "number_of_load_commands     : 0x" ++
       hex 8 (number_of_load_commands o) ++ nl ++
     "size_of_load_commands       : 0x" ++
       hex 8 (size_of_load_commands o) ++ nl ++
     "flags                       : 0x" ++ hex 8 (flags o) ++ nl ++
     "reserved                    : 0x" ++ hex 8 (reserved o) ++ nl)%string;
    ("---------------------------------------" ++ nl)%string ].

(** The memory [%s] walks through when it is given [segname]: the array,
    then the members that follow it in [segment_command_64_t].  After
    [flags] comes the pointer [sections], whose value the model does not
    have: the walk ends there at the latest. *)
Definition segname_memory (s : segment_command_64_t) : list byte :=
  encode_segment_fields s.

(** Lines 417-427.  The tag line says [LC_SYMTAB], and the line labelled
    [vmsize] is given [vmaddr], as in the source. *)
Definition print_segment (c : load_command_t) (s : segment_command_64_t)
  : list string :=
  [ tag_line "LC_SYMTAB" (cmd c);
    (tab ++ "segname       : " ++ dquote ++ c_string (segname_memory s) ++
     dquote ++ nl)%string;
    line64 "vmaddr        : " (vmaddr s);
    line64 "vmsize        : " (vmaddr s);
    line64 "fileoff       : " (fileoff s);
    line64 "filesize      : " (filesize s);
    line32 "maxprot       : " (maxprot s);
    line32 "initprot      : " (initprot s);
    line32 "nsects        : " (nsects s);
    line32 "flags         : " (seg_flags s);
    nl ].

(** Lines 435-440. *)
Definition print_build_version (c : load_command_t)
  (b : build_version_command_t) : list string :=
  [ tag_line "LC_BUILD_VERSION" (cmd c);
    line32 "platform : " (platform b);
    line32 "minos    : " (minos b);
    line32 "sdk      : " (sdk b);
    line32 "ntools   : " (ntools b);
    nl ].

(** Lines 445-449. *)
Definition print_symtab (c : load_command_t) (s : symtab_command_t)
  : list string :=
  [ tag_line "LC_SYMTAB" (cmd c);
    line32 "symoff  : " (symoff s);
    line32 "nsyms   : " (nsyms s);
    line32 "stroff  : " (stroff s);
    (line32 "strsize : " (strsize s) ++ nl)%string ].

(** Lines 454-472. *)
Definition print_dysymtab (c : load_command_t) (d : dysymtab_command_t)
  : list string :=
  [ tag_line "LC_DYSYMTAB" (cmd c);
    line32 "ilocalsym     : " (ilocalsym d);
    line32 "nlocalsym     : " (nlocalsym d);
    line32 "iextdefsym     : " (iextdefsym d);
    line32 "nextdefsym     : " (nextdefsym d);
    line32 "iundefsym     : " (iundefsym d);
    line32 "nundefsym     : " (nundefsym d);
    line32 "tocoff     : " (tocoff d);
    line32 "ntoc     : " (ntoc d);
    line32 "modtaboff     : " (modtaboff d);
    line32 "nmodtab     : " (nmodtab d);
    line32 "extrefsymoff     : " (extrefsymoff d);
    line32 "nextrefsyms     : " (nextrefsyms d);
    line32 "indirectsymoff     : " (indirectsymoff d);
    line32 "nindirectsyms     : " (nindirectsyms d);
    line32 "extreloff     : " (extreloff d);
    line32 "nextrel     : " (nextrel d);
    line32 "locreloff     : " (locreloff d);
    (line32 "nlocrel     : " (nlocrel d) ++ nl)%string ].

(** The [switch] of lines 413-478, its cases in the order of the source.
    A command whose union member is not the one of its tag does not come
    out of [parse_file] (lemma [read_commands_tagged]); the model prints
    nothing for it. *)
Definition print_command (c : load_command_t) : list string :=
  if cmd c =? LC_SEGMENT_64 then
    match body c with cmd_seg_64 s => print_segment c s | _ => [] end
  else if cmd c =? LC_BUILD_VERSION then
    match body c with cmd_build_version b => print_build_version c b | _ => [] end
  else if cmd c =? LC_SYMTAB then
    match body c with cmd_symtab s => print_symtab c s | _ => [] end
  else if cmd c =? LC_DYSYMTAB then
    match body c with cmd_dysymtab d => print_dysymtab c d | _ => [] end
  else
    [ ("unknown opcode encountered : 0x" ++ hex 8 (cmd c) ++ nl)%string ].

Definition pretty_print (o : mach_object_file_t) : list string :=
  print_header o ++
  flat_map print_command
    (firstn (Z.to_nat (number_of_load_commands o)) (commands o)).

(** The union member of a command is the one of its tag. *)
Definition tagged (c : load_command_t) : Prop :=
  match body c with
  | cmd_seg_64 _ => cmd c = LC_SEGMENT_64
  | cmd_build_version _ => cmd c = LC_BUILD_VERSION
  | cmd_symtab _ => cmd c = LC_SYMTAB
  | cmd_dysymtab _ => cmd c = LC_DYSYMTAB
  end.

(** The four tags are distinct 32-bit values: they are the labels of one
    [switch] over a [uint32_t]. *)
Definition tags_distinct : Prop :=
  u32_range LC_SEGMENT_64 /\ u32_range LC_BUILD_VERSION /\
  LC_SEGMENT_64 <> LC_BUILD_VERSION /\
  LC_SEGMENT_64 <> LC_SYMTAB /\ LC_SEGMENT_64 <> LC_DYSYMTAB /\
  LC_BUILD_VERSION <> LC_SYMTAB /\ LC_BUILD_VERSION <> LC_DYSYMTAB.

Definition recognized (tag : Z) : Prop :=
  tag = LC_SEGMENT_64 \/ tag = LC_SYMTAB \/ tag = LC_DYSYMTAB \/
  tag = LC_BUILD_VERSION.

(** ** Statements about runs

    [reads m bs a]: on a stream that goes on with the bytes [bs], [m]
    returns [a] and leaves the cursor behind [bs]. *)

Definition reads {A} (m : io A) (bs : list byte) (a : A) : Prop :=
  forall f rest,
    skipn (pos f) (contents f) = bs ++ rest ->
    exists f',
      m f = Done a f' /\ contents f' = contents f /\
      pos f' = (pos f + length bs)%nat /\
      skipn (pos f') (contents f') = rest.

(** [hoare P m Q E]: from a stream in [P], [m] ends in [Q] when it
    returns and in [E] when it leaves through [exit]. *)
Definition hoare {A} (P : FILE -> Prop) (m : io A)
  (Q : A -> FILE -> Prop) (E : Z -> FILE -> Prop) : Prop :=
  forall f, P f ->
    match m f with
    | Done a f' => Q a f'
    | Exit tag f' => E tag f'
    end.

Definition logged (L : list io_event) (f : FILE) : Prop := log f = L.

(** The calls a structure costs to read, the most recent first. *)

Definition section_events : list io_event :=
  repeat (io_read 4) 8 ++ [io_read 8; io_read 8; io_read 16; io_read 16].

Fixpoint sections_events (n : nat) : list io_event :=
  match n with
  | O => []
  | S n' => sections_events n' ++ section_events
  end.

Definition segment_fields_events : list io_event :=
  repeat (io_read 4) 4 ++ repeat (io_read 8) 4 ++ [io_read 16].

Definition body_events (u : command_union) : list io_event :=
  match u with
  | cmd_seg_64 s =>
      sections_events (Z.to_nat (nsects s)) ++ segment_fields_events
  | cmd_build_version _ => repeat (io_read 4) 4
  | cmd_symtab _ => repeat (io_read 4) 4
  | cmd_dysymtab _ => repeat (io_read 4) 18
  end.

Definition command_events (c : load_command_t) : list io_event :=
  body_events (body c) ++ [io_read 4; io_read 4].

Fixpoint commands_events (cs : list load_command_t) : list io_event :=
  match cs with
  | [] => []
  | c :: rest => commands_events rest ++ command_events c
  end.

Definition entry_events : list io_event :=
  [io_read 8; io_read 2; io_read 1; io_read 1; io_read 4].

Fixpoint entries_events (n : nat) : list io_event :=
  match n with
  | O => []
  | S n' => entries_events n' ++ entry_events
  end.

(** A load command as it stands in a file and as [read_commands] stores
    it: every member in the range of its type, the union member the one
    of the tag, as many sections as [nsects] says, no symbol table
    attached. *)
Definition well_formed (c : load_command_t) : Prop :=
  command_ok c /\ tagged c /\ unresolved c /\
  match body c with
  | cmd_seg_64 s => nsects s = Z.of_nat (length (sections s))
  | _ => True
  end.

(** A load command as [parse_file] leaves it: as [well_formed], but for
    the symbol table, which may be attached. *)
Definition decoded (c : load_command_t) : Prop :=
  command_ok c /\ tagged c /\
  match body c with
  | cmd_seg_64 s => nsects s = Z.of_nat (length (sections s))
  | _ => True
  end.

Definition decoded_object (o : mach_object_file_t) : Prop :=
  header_ok o /\
  length (commands o) = Z.to_nat (number_of_load_commands o) /\
  Forall decoded (commands o).

(** The offsets the stream was positioned at, the most recent first. *)
Fixpoint seeks (L : list io_event) : list nat :=
  match L with
  | [] => []
  | io_seek off :: rest => off :: seeks rest
  | io_read _ :: rest => seeks rest
  end.

Definition header_events : list io_event := repeat (io_read 4) 8.

(** The command the second loop of [parse_file] makes of [c], when it
    read the entries [es]. *)
Definition attach (c : load_command_t) (st : symtab_command_t)
  (es : list nlist_64_t) : load_command_t :=
  {| cmd := cmd c; cmd_size := cmd_size c;
     body := cmd_symtab
               {| symoff := symoff st; nsyms := nsyms st;
                  stroff := stroff st; strsize := strsize st;
                  string_table := string_table st;
                  symbol_table := Some es |} |}.

(** The calls of the second loop for the symbol table command [st]. *)
Definition resolve_events (st : symtab_command_t) : list io_event :=
  entries_events (Z.to_nat (nsyms st)) ++
  [io_seek (Z.to_nat (symoff st)); io_read (Z.to_nat (strsize st));
   io_seek (Z.to_nat (stroff st))].

(** Word [k] of the header as it is after [read_header] on a file of
    content [data]: the bytes of the file that are there, then the zero
    bytes [object_file] held before. *)
Definition header_word (data : list byte) (k : nat) : Z :=
  le_to_Z (store (repeat x00 4) (firstn 4 (skipn (4 * k) data))).

Definition header_of (data : list byte) : mach_object_file_t :=
  {| magic := header_word data 0; cpu_type := header_word data 1;
     cpu_subtype := header_word data 2; file_type := header_word data 3;
     number_of_load_commands := header_word data 4;
     size_of_load_commands := header_word data 5;
     flags := header_word data 6; reserved := header_word data 7;
     commands := [] |}.

(** ** Two runs

    [rel2 RS RV m1 m2]: from streams related by [RS], [m1] and [m2] take
    the same way out, with values related by [RV] (the same tag, at an
    [exit]) and streams related by [RS]. *)
Definition rel2 {A} (RS : FILE -> FILE -> Prop) (RV : A -> A -> Prop)
  (m1 m2 : io A) : Prop :=
  forall f1 f2, RS f1 f2 ->
    match m1 f1, m2 f2 with
    | Done a1 g1, Done a2 g2 => RV a1 a2 /\ RS g1 g2
    | Exit t1 g1, Exit t2 g2 => t1 = t2 /\ RS g1 g2
    | _, _ => False
    end.

(** Two streams at the same point, with the same calls behind them and
    the same bytes ahead. *)
Definition seq_equiv (f1 f2 : FILE) : Prop :=
  pos f1 = pos f2 /\ log f1 = log f2 /\
  skipn (pos f1) (contents f1) = skipn (pos f2) (contents f2).

(** Two streams at the same point, with the same calls behind them, on
    files of the same length. *)
Definition same_shape (f1 f2 : FILE) : Prop :=
  pos f1 = pos f2 /\ log f1 = log f2 /\
  length (contents f1) = length (contents f2).

Definition sequential {A} (m : io A) : Prop := rel2 seq_equiv eq m m.

Definition shapely {A} (m : io A) : Prop :=
  rel2 same_shape (fun _ _ => True) m m.

(** [m] does not change the file. *)
Definition preserves {A} (m : io A) : Prop :=
  forall f,
    match m f with
    | Done _ f' => contents f' = contents f
    | Exit _ f' => contents f' = contents f
    end.


(** The value of a hexadecimal digit. *)
Definition hex_val (c : ascii) : Z :=
  match c with
  | "0" => 0 | "1" => 1 | "2" => 2 | "3" => 3 | "4" => 4 | "5" => 5
  | "6" => 6 | "7" => 7 | "8" => 8 | "9" => 9 | "a" => 10 | "b" => 11
  | "c" => 12 | "d" => 13 | "e" => 14 | _ => 15
  end%char.

(** What the report shows of a segment: the text at [segname] and seven
    of the numbers. *)
Definition segment_shown (s1 s2 : segment_command_64_t) : Prop :=
  c_string (segname_memory s1) = c_string (segname_memory s2) /\
  vmaddr s1 = vmaddr s2 /\ fileoff s1 = fileoff s2 /\
  filesize s1 = filesize s2 /\ maxprot s1 = maxprot s2 /\
  initprot s1 = initprot s2 /\ nsects s1 = nsects s2 /\
  seg_flags s1 = seg_flags s2.

Definition symtab_shown (s1 s2 : symtab_command_t) : Prop :=
  symoff s1 = symoff s2 /\ nsyms s1 = nsyms s2 /\ stroff s1 = stroff s2 /\
  strsize s1 = strsize s2.

(** Two commands that the report cannot tell apart agree on this. *)
Definition shown_alike (c1 c2 : load_command_t) : Prop :=
  cmd c1 = cmd c2 /\
  match body c1, body c2 with
  | cmd_seg_64 s1, cmd_seg_64 s2 => segment_shown s1 s2
  | cmd_build_version b1, cmd_build_version b2 => b1 = b2
  | cmd_symtab s1, cmd_symtab s2 => symtab_shown s1 s2
  | cmd_dysymtab d1, cmd_dysymtab d2 => d1 = d2
  | _, _ => False
  end.

(** ** Further statements about runs *)

(** [track f0 bs f]: [f] is the stream [f0] read further; if the file
    holds as many bytes after the cursor of [f0] as [bs] has, the
    cursor of [f] stands that many bytes further and [bs] are the bytes
    in between. *)
Definition track (f0 : FILE) (bs : list byte) (f : FILE) : Prop :=
  contents f = contents f0 /\
  ((pos f0 + length bs <= length (contents f0))%nat ->
   pos f = (pos f0 + length bs)%nat /\
   firstn (length bs) (skipn (pos f0) (contents f0)) = bs).

Definition encode_entries (es : list nlist_64_t) : list byte :=
  flat_map encode_entry es.

(** The bytes [read_command] asks for when it decodes [c]: the tag and
    the size, then the fixed part of the body, then [nsects] sections
    of 80 bytes each. *)
Definition wire_size (c : load_command_t) : nat :=
  (8 + match body c with
       | cmd_seg_64 s => 64 + 80 * Z.to_nat (nsects s)
       | cmd_build_version _ => 16
       | cmd_symtab _ => 16
       | cmd_dysymtab _ => 72
       end)%nat.

(** [cursor f0 n f]: [f] is the stream [f0], which stood inside its
    file, after reads that asked for [n] bytes in all. *)
Definition cursor (f0 : FILE) (n : nat) (f : FILE) : Prop :=
  contents f = contents f0 /\
  ((pos f0 <= length (contents f0))%nat ->
   pos f = Nat.min (pos f0 + n) (length (contents f0))).

Definition wire_sizes (cs : list load_command_t) : nat :=
  list_sum (map wire_size cs).

(** The line of the report that shows the text at [segname]. *)
Definition segname_line (text : string) : string :=
  (tab ++ "segname       : " ++ dquote ++ text ++ dquote ++ nl)%string.

(** ** The program *)

Definition RED_BOLD : string := String "027"%char "[1;31m".
Definition WHITE_BOLD : string := String "027"%char "[1;37m".
Definition RESET : string := String "027"%char "[0m".

(** How the process ends: [exit (0)] and [return EXIT_SUCCESS] from
    [main] are both a successful termination, [exit (EXIT_FAILURE)] an
    unsuccessful one.  [fopen] gives a null pointer for a file that
    cannot be opened, main.c does not test it, and [fread] on a null
    stream has no defined behaviour. *)
Inductive ending_t := Success | Failure | Undefined.

Record process := {
  stdout : list string;
  ending : ending_t
}.

(** Lines 486-487, one string for each [printf]. *)
Definition usage (argv0 : string) : list string :=
  [ (RED_BOLD ++ "error" ++ RESET ++ ": incorrect number of arguments" ++
     nl)%string;
    (nl ++ WHITE_BOLD ++ "usage" ++ RESET ++ ": " ++ argv0 ++ " <filename>" ++
     nl)%string ].

(** Line 356. *)
Definition unexpected_tag (tag : Z) : string :=
  ("Encountered unexpected tag with value 0x" ++ hex 8 tag ++ nl)%string.


(** [main], lines 482-496.  [argv0] is [argv[0]] and [args] are the
    arguments after it, so that [argc] is [1 + length args]; [files]
    gives the content of the files that can be opened. *)
Definition main (files : string -> option (list byte)) (argv0 : string)
  (args : list string) : process :=
  match args with
  | [path] =>
      match files path with
      | None => {| stdout := []; ending := Undefined |}
      | Some data =>
          match parse_file data with
          | Done o _ => {| stdout := pretty_print o; ending := Success |}
          | Exit tag _ =>
              {| stdout := [unexpected_tag tag]; ending := Failure |}
          end
      end
  | _ => {| stdout := usage argv0; ending := Success |}
  end.

Hypothesis tags_ok : tags_distinct.

(** ** Facts about bytes and integers *)

Lemma byte_to_Z_range (b : byte) : 0 <= byte_to_Z b < 256.
Proof.
  unfold byte_to_Z. pose proof (Byte.to_N_bounded b). lia.
Qed.

Lemma byte_to_Z_of_Z (z : Z) : byte_to_Z (byte_of_Z z) = z mod 256.
Proof.
  unfold byte_to_Z, byte_of_Z.
  pose proof (Z.mod_pos_bound z 256 ltac:(lia)) as Hm.
  destruct (Byte.of_N (Z.to_N (z mod 256))) as [b|] eqn:E.
  - apply Byte.to_of_N in E. rewrite E. lia.
  - apply Byte.of_N_None_iff in E. lia.
Qed.

Lemma length_Z_to_le (n : nat) (z : Z) : length (Z_to_le n z) = n.
Proof.
  revert z. induction n as [|n IH]; intros z; simpl; [reflexivity|].
  now rewrite IH.
Qed.

Lemma le_to_Z_bound (bs : list byte) :
  0 <= le_to_Z bs < 256 ^ Z.of_nat (length bs).
Proof.
  induction bs as [|b bs IH].
  - simpl. lia.
  - cbn [le_to_Z length]. rewrite Nat2Z.inj_succ, Z.pow_succ_r by lia.
    pose proof (byte_to_Z_range b). lia.
Qed.

Lemma le_to_Z_to_le (n : nat) (z : Z) :
  0 <= z < 256 ^ Z.of_nat n -> le_to_Z (Z_to_le n z) = z.
Proof.
  revert z. induction n as [|n IH]; intros z Hz.
  - simpl in *. lia.
  - cbn [Z_to_le le_to_Z]. rewrite byte_to_Z_of_Z.
    rewrite Nat2Z.inj_succ, Z.pow_succ_r in Hz by lia.
    rewrite IH.
    + pose proof (Z.div_mod z 256 ltac:(lia)). lia.
    + split; [apply Z.div_pos; lia|].
      apply Z.div_lt_upper_bound; lia.
Qed.

Lemma u8_le (z : Z) : u8_range z -> le_to_Z (Z_to_le 1 z) = z.
Proof. intros H. apply le_to_Z_to_le. exact H. Qed.

Lemma u16_le (z : Z) : u16_range z -> le_to_Z (Z_to_le 2 z) = z.
Proof. intros H. apply le_to_Z_to_le. exact H. Qed.

Lemma u32_le (z : Z) : u32_range z -> le_to_Z (Z_to_le 4 z) = z.
Proof. intros H. apply le_to_Z_to_le. exact H. Qed.

Lemma u64_le (z : Z) : u64_range z -> le_to_Z (Z_to_le 8 z) = z.
Proof. intros H. apply le_to_Z_to_le. exact H. Qed.

Lemma length_uninit_bytes (n : nat) : length (uninit_bytes n) = n.
Proof. unfold uninit_bytes. now rewrite length_map, length_seq. Qed.

Lemma store_full (old got : list byte) :
  length got = length old -> store old got = got.
Proof.
  intros H. unfold store. rewrite skipn_all2 by lia. apply app_nil_r.
Qed.

Lemma length_store (old got : list byte) :
  (length got <= length old)%nat -> length (store old got) = length old.
Proof.
  intros H. unfold store. rewrite length_app, length_skipn. lia.
Qed.

(** ** Reading what was written *)

Lemma reads_ret {A} (a b : A) : a = b -> reads (ret a) [] b.
Proof.
  intros <- f rest H. exists f. simpl in *.
  repeat split; [lia | exact H].
Qed.

Lemma reads_bind {A B} (m : io A) (k : A -> io B) bs1 bs2 a b :
  reads m bs1 a -> reads (k a) bs2 b -> reads (bind m k) (bs1 ++ bs2) b.
Proof.
  intros Hm Hk f rest H. rewrite <- app_assoc in H.
  destruct (Hm f _ H) as (f1 & E1 & C1 & P1 & R1).
  destruct (Hk f1 _ R1) as (f2 & E2 & C2 & P2 & R2).
  exists f2. unfold bind. rewrite E1, E2, length_app.
  repeat split; [congruence | lia | exact R2].
Qed.

Lemma reads_nil_r {A} (m : io A) bs a : reads m (bs ++ []) a -> reads m bs a.
Proof. now rewrite app_nil_r. Qed.

Lemma skipn_after (l bs rest : list byte) (p : nat) :
  skipn p l = bs ++ rest -> skipn (p + length bs) l = rest.
Proof.
  intros H. rewrite Nat.add_comm, <- skipn_skipn, H.
  rewrite skipn_app, Nat.sub_diag, skipn_all. reflexivity.
Qed.

Lemma reads_fread (n : nat) (bs : list byte) :
  length bs = n -> reads (fread n) bs bs.
Proof.
  intros Hn f rest H. unfold fread. rewrite H.
  rewrite firstn_app, <- Hn, firstn_all, Nat.sub_diag. simpl.
  rewrite app_nil_r. eexists. split; [reflexivity|]. simpl.
  repeat split. now apply skipn_after.
Qed.

Lemma reads_fread_local (n : nat) (bs : list byte) :
  length bs = n -> reads (fread_local n) bs bs.
Proof.
  intros Hn. unfold fread_local. apply reads_nil_r.
  eapply reads_bind; [now apply reads_fread|].
  apply reads_ret. apply store_full. now rewrite length_uninit_bytes.
Qed.

Lemma reads_fread_static (n : nat) (bs : list byte) :
  length bs = n -> reads (fread_static n) bs bs.
Proof.
  intros Hn. unfold fread_static. apply reads_nil_r.
  eapply reads_bind; [now apply reads_fread|].
  apply reads_ret. apply store_full. now rewrite repeat_length.
Qed.

Lemma reads_u8 (z : Z) : u8_range z -> reads read_u8 (Z_to_le 1 z) z.
Proof.
  intros Hz. unfold read_u8. apply reads_nil_r.
  eapply reads_bind; [apply reads_fread_local, length_Z_to_le|].
  apply reads_ret. now apply u8_le.
Qed.

Lemma reads_u16 (z : Z) : u16_range z -> reads read_u16 (Z_to_le 2 z) z.
Proof.
  intros Hz. unfold read_u16. apply reads_nil_r.
  eapply reads_bind; [apply reads_fread_local, length_Z_to_le|].
  apply reads_ret. now apply u16_le.
Qed.

Lemma reads_u32 (z : Z) : u32_range z -> reads read_u32 (Z_to_le 4 z) z.
Proof.
  intros Hz. unfold read_u32. apply reads_nil_r.
  eapply reads_bind; [apply reads_fread_local, length_Z_to_le|].
  apply reads_ret. now apply u32_le.
Qed.

Lemma reads_u64 (z : Z) : u64_range z -> reads read_u64 (Z_to_le 8 z) z.
Proof.
  intros Hz. unfold read_u64. apply reads_nil_r.
  eapply reads_bind; [apply reads_fread_local, length_Z_to_le|].
  apply reads_ret. now apply u64_le.
Qed.

Lemma reads_u32_static (z : Z) :
  u32_range z -> reads read_u32_static (Z_to_le 4 z) z.
Proof.
  intros Hz. unfold read_u32_static. apply reads_nil_r.
  eapply reads_bind; [apply reads_fread_static, length_Z_to_le|].
  apply reads_ret. now apply u32_le.
Qed.

(** One structure: the members are read one after the other. *)
Ltac reads_fields :=
  apply reads_nil_r; rewrite <- ?app_assoc;
  repeat (eapply reads_bind;
          [ first [ apply reads_u32; assumption
                  | apply reads_u64; assumption
                  | apply reads_u16; assumption
                  | apply reads_u8; assumption
                  | apply reads_u32_static; assumption
                  | apply reads_fread_local; assumption ] | ]).

Lemma reads_section (s : section_64_t) :
  section_ok s -> reads read_section (encode_section s) s.
Proof.
  intros (? & ? & ? & ? & ? & ? & ? & ? & ? & ? & ? & ?).
  unfold read_section, encode_section. reads_fields.
  apply reads_ret. destruct s; reflexivity.
Qed.

Lemma reads_sections (ss : list section_64_t) :
  Forall section_ok ss ->
  reads (read_sections (length ss)) (encode_sections ss) ss.
Proof.
  induction 1 as [|s ss Hs _ IH]; simpl.
  - now apply reads_ret.
  - eapply reads_bind; [now apply reads_section|].
    apply reads_nil_r. eapply reads_bind; [exact IH|].
    now apply reads_ret.
Qed.

Lemma reads_segment (s : segment_command_64_t) :
  segment_ok s -> nsects s = Z.of_nat (length (sections s)) ->
  reads read_segment (encode_segment s) s.
Proof.
  intros (? & ? & ? & ? & ? & ? & ? & ? & ? & Hss) Hn.
  unfold read_segment, encode_segment, encode_segment_fields.
  reads_fields.
  eapply reads_bind.
  { rewrite Hn, Nat2Z.id. now apply reads_sections. }
  apply reads_ret. destruct s; reflexivity.
Qed.

Lemma reads_dysymtab (d : dysymtab_command_t) :
  dysymtab_ok d -> reads read_dysymtab (encode_dysymtab d) d.
Proof.
  intros (? & ? & ? & ? & ? & ? & ? & ? & ? & ? & ? & ? & ? & ? & ? & ? & ? & ?).
  unfold read_dysymtab, encode_dysymtab. reads_fields.
  apply reads_ret. destruct d; reflexivity.
Qed.

Lemma reads_symtab (s : symtab_command_t) :
  symtab_ok s -> string_table s = None -> symbol_table s = None ->
  reads read_symtab (encode_symtab s) s.
Proof.
  intros (? & ? & ? & ?) Hstr Hsym.
  unfold read_symtab, encode_symtab. reads_fields.
  apply reads_ret. destruct s; simpl in *; now subst.
Qed.

Lemma reads_build_version (b : build_version_command_t) :
  build_version_ok b -> reads read_build_version (encode_build_version b) b.
Proof.
  intros (? & ? & ? & ?).
  unfold read_build_version, encode_build_version. reads_fields.
  apply reads_ret. destruct b; reflexivity.
Qed.

Lemma reads_entry (e : nlist_64_t) :
  entry_ok e -> reads read_entry (encode_entry e) e.
Proof.
  intros (? & ? & ? & ? & ?).
  unfold read_entry, encode_entry. reads_fields.
  apply reads_ret. destruct e; reflexivity.
Qed.

Ltac tag_tests :=
  repeat match goal with
  | |- context [?a =? ?a] => rewrite (Z.eqb_refl a)
  | |- context [?a =? ?b] =>
      rewrite (proj2 (Z.eqb_neq a b)) by
        (unfold LC_SYMTAB, LC_DYSYMTAB in *; congruence)
  end.

Lemma reads_command (c : load_command_t) :
  well_formed c -> reads read_command (encode_command c) c.
Proof.
  intros ((Hc & Hs & Hu) & Ht & Hr & Hn).
  destruct tags_ok as (_ & _ & ? & ? & ? & ? & ?).
  unfold read_command, encode_command.
  eapply reads_bind; [now apply reads_u32|].
  eapply reads_bind; [now apply reads_u32|].
  destruct c as [tag sz [s|b|s|d]]; unfold tagged, unresolved in *;
    simpl in *; subst tag; tag_tests; apply reads_nil_r;
    (eapply reads_bind; [|now apply reads_ret]).
  - now apply reads_segment.
  - now apply reads_build_version.
  - destruct Hu, Hr. now apply reads_symtab.
  - now apply reads_dysymtab.
Qed.

Lemma reads_commands (cs : list load_command_t) :
  Forall well_formed cs ->
  reads (read_commands (length cs)) (encode_commands cs) cs.
Proof.
  induction 1 as [|c cs Hc _ IH].
  - now apply reads_ret.
  - change (encode_commands (c :: cs))
      with (encode_command c ++ encode_commands cs).
    cbn [length read_commands].
    eapply reads_bind; [now apply reads_command|].
    apply reads_nil_r. eapply reads_bind; [exact IH|].
    now apply reads_ret.
Qed.

Lemma reads_header (o : mach_object_file_t) :
  header_ok o -> reads read_header (encode_header o) (set_commands o []).
Proof.
  intros (? & ? & ? & ? & ? & ? & ? & ?).
  unfold read_header, encode_header. reads_fields.
  now apply reads_ret.
Qed.

(** ** What a run ensures *)

Lemma hoare_ret {A} (P : FILE -> Prop) (a : A) Q E :
  (forall f, P f -> Q a f) -> hoare P (ret a) Q E.
Proof. intros H f Hf. now apply H. Qed.

Lemma hoare_bind {A B} P (m : io A) (k : A -> io B) Q R E :
  hoare P m Q E -> (forall a, hoare (Q a) (k a) R E) ->
  hoare P (bind m k) R E.
Proof.
  intros Hm Hk f Hf. unfold bind. specialize (Hm f Hf).
  destruct (m f) as [a f'|tag f']; [now apply Hk | exact Hm].
Qed.

Lemma hoare_pure {A} (phi : Prop) P (m : io A) Q E :
  (phi -> hoare P m Q E) -> hoare (fun f => phi /\ P f) m Q E.
Proof. intros H f [Hphi Hf]. now apply H. Qed.

Lemma hoare_weaken {A} P (m : io A) (Q Q' : A -> FILE -> Prop)
  (E E' : Z -> FILE -> Prop) :
  hoare P m Q E -> (forall a f, Q a f -> Q' a f) ->
  (forall t f, E t f -> E' t f) -> hoare P m Q' E'.
Proof.
  intros H HQ HE f Hf. specialize (H f Hf).
  destruct (m f); [now apply HQ | now apply HE].
Qed.

Lemma hoare_exit {A} P (tag : Z) (Q : A -> FILE -> Prop)
  (E : Z -> FILE -> Prop) :
  (forall f, P f -> E tag f) -> hoare P (exit_failure tag) Q E.
Proof. intros H f Hf. now apply H. Qed.

Lemma fread_spec L n E :
  hoare (logged L) (fread n)
    (fun bs f => (length bs <= n)%nat /\ logged (io_read n :: L) f) E.
Proof.
  intros f Hf. unfold fread, logged in *. simpl. rewrite Hf.
  split; [|reflexivity]. rewrite length_firstn. lia.
Qed.

Lemma fread_local_spec L n E :
  hoare (logged L) (fread_local n)
    (fun bs f => length bs = n /\ logged (io_read n :: L) f) E.
Proof.
  unfold fread_local. eapply hoare_bind; [apply fread_spec|].
  intros got. apply hoare_pure. intros Hlen. apply hoare_ret.
  intros f Hf. split; [|exact Hf].
  rewrite length_store; rewrite length_uninit_bytes; [reflexivity|exact Hlen].
Qed.

Lemma fread_static_spec L n E :
  hoare (logged L) (fread_static n)
    (fun bs f => length bs = n /\ logged (io_read n :: L) f) E.
Proof.
  unfold fread_static. eapply hoare_bind; [apply fread_spec|].
  intros got. apply hoare_pure. intros Hlen. apply hoare_ret.
  intros f Hf. split; [|exact Hf].
  rewrite length_store; rewrite repeat_length; [reflexivity|exact Hlen].
Qed.

Lemma le_to_Z_range (n : nat) (bs : list byte) :
  length bs = n -> 0 <= le_to_Z bs < 256 ^ Z.of_nat n.
Proof. intros <-. apply le_to_Z_bound. Qed.

Lemma read_u8_spec L E :
  hoare (logged L) read_u8
    (fun z f => u8_range z /\ logged (io_read 1 :: L) f) E.
Proof.
  unfold read_u8. eapply hoare_bind; [apply fread_local_spec|].
  intros bs. apply hoare_pure. intros Hlen. apply hoare_ret.
  intros f Hf. split; [|exact Hf]. exact (le_to_Z_range 1 bs Hlen).
Qed.

Lemma read_u16_spec L E :
  hoare (logged L) read_u16
    (fun z f => u16_range z /\ logged (io_read 2 :: L) f) E.
Proof.
  unfold read_u16. eapply hoare_bind; [apply fread_local_spec|].
  intros bs. apply hoare_pure. intros Hlen. apply hoare_ret.
  intros f Hf. split; [|exact Hf]. exact (le_to_Z_range 2 bs Hlen).
Qed.

Lemma read_u32_spec L E :
  hoare (logged L) read_u32
    (fun z f => u32_range z /\ logged (io_read 4 :: L) f) E.
Proof.
  unfold read_u32. eapply hoare_bind; [apply fread_local_spec|].
  intros bs. apply hoare_pure. intros Hlen. apply hoare_ret.
  intros f Hf. split; [|exact Hf]. exact (le_to_Z_range 4 bs Hlen).
Qed.

Lemma read_u64_spec L E :
  hoare (logged L) read_u64
    (fun z f => u64_range z /\ logged (io_read 8 :: L) f) E.
Proof.
  unfold read_u64. eapply hoare_bind; [apply fread_local_spec|].
  intros bs. apply hoare_pure. intros Hlen. apply hoare_ret.
  intros f Hf. split; [|exact Hf]. exact (le_to_Z_range 8 bs Hlen).
Qed.

Lemma read_u32_static_spec L E :
  hoare (logged L) read_u32_static
    (fun z f => u32_range z /\ logged (io_read 4 :: L) f) E.
Proof.
  unfold read_u32_static. eapply hoare_bind; [apply fread_static_spec|].
  intros bs. apply hoare_pure. intros Hlen. apply hoare_ret.
  intros f Hf. split; [|exact Hf]. exact (le_to_Z_range 4 bs Hlen).
Qed.

(** The members of one structure, read one after the other; what is
    left is the structure that is returned. *)
Ltac hoare_fields :=
  repeat (eapply hoare_bind;
          [ first [ apply read_u32_spec | apply read_u64_spec
                  | apply read_u16_spec | apply read_u8_spec
                  | apply read_u32_static_spec | apply fread_local_spec ]
          | intros ?; apply hoare_pure; intros ? ]).

Ltac conjuncts :=
  repeat match goal with |- _ /\ _ => split end; try assumption.

Lemma read_section_spec L E :
  hoare (logged L) read_section
    (fun s f => section_ok s /\ logged (section_events ++ L) f) E.
Proof.
  unfold read_section. hoare_fields. apply hoare_ret. intros f Hf.
  split; [|exact Hf]. unfold section_ok; simpl. conjuncts.
Qed.

Lemma read_sections_spec n : forall L E,
  hoare (logged L) (read_sections n)
    (fun ss f => (Forall section_ok ss /\ length ss = n) /\
                 logged (sections_events n ++ L) f) E.
Proof.
  induction n as [|n IH]; intros L E; simpl.
  - apply hoare_ret. intros f Hf. split; [split; [constructor|reflexivity]|exact Hf].
  - eapply hoare_bind; [apply read_section_spec|].
    intros s. apply hoare_pure. intros Hs.
    eapply hoare_bind; [apply IH|].
    intros ss. cbv beta. apply hoare_pure. intros [Hss Hlen].
    apply hoare_ret. intros f Hf. split; [split|].
    + now constructor.
    + simpl. now rewrite Hlen.
    + unfold logged in *. now rewrite <- app_assoc.
Qed.

Lemma read_segment_spec L E :
  hoare (logged L) read_segment
    (fun s f => (segment_ok s /\ nsects s = Z.of_nat (length (sections s))) /\
                logged (body_events (cmd_seg_64 s) ++ L) f) E.
Proof.
  unfold read_segment. hoare_fields.
  eapply hoare_bind; [apply read_sections_spec|].
  intros ss. cbv beta. apply hoare_pure. intros [Hss Hlen].
  apply hoare_ret. intros f Hf. split; [split|]; simpl.
  - unfold segment_ok; simpl. conjuncts.
  - rewrite Hlen. match goal with H : u32_range ?n |- ?n = _ =>
      unfold u32_range in H; lia end.
  - unfold logged in *. now rewrite <- app_assoc.
Qed.

Lemma read_dysymtab_spec L E :
  hoare (logged L) read_dysymtab
    (fun d f => dysymtab_ok d /\
                logged (body_events (cmd_dysymtab d) ++ L) f) E.
Proof.
  unfold read_dysymtab. hoare_fields. apply hoare_ret. intros f Hf.
  split; [|exact Hf]. unfold dysymtab_ok; simpl. conjuncts.
Qed.

Lemma read_symtab_spec L E :
  hoare (logged L) read_symtab
    (fun s f => (symtab_ok s /\ string_table s = None /\
                 symbol_table s = None) /\
                logged (body_events (cmd_symtab s) ++ L) f) E.
Proof.
  unfold read_symtab. hoare_fields. apply hoare_ret. intros f Hf.
  split; [|exact Hf]. unfold symtab_ok; simpl. conjuncts; reflexivity.
Qed.

Lemma read_build_version_spec L E :
  hoare (logged L) read_build_version
    (fun b f => build_version_ok b /\
                logged (body_events (cmd_build_version b) ++ L) f) E.
Proof.
  unfold read_build_version. hoare_fields. apply hoare_ret. intros f Hf.
  split; [|exact Hf]. unfold build_version_ok; simpl. conjuncts.
Qed.

Lemma read_entry_spec L E :
  hoare (logged L) read_entry
    (fun e f => entry_ok e /\ logged (entry_events ++ L) f) E.
Proof.
  unfold read_entry. hoare_fields. apply hoare_ret. intros f Hf.
  split; [|exact Hf]. unfold entry_ok; simpl. conjuncts.
Qed.

Lemma read_entries_spec n : forall L E,
  hoare (logged L) (read_entries n)
    (fun es f => (Forall entry_ok es /\ length es = n) /\
                 logged (entries_events n ++ L) f) E.
Proof.
  induction n as [|n IH]; intros L E; simpl.
  - apply hoare_ret. intros f Hf. split; [split; [constructor|reflexivity]|exact Hf].
  - eapply hoare_bind; [apply read_entry_spec|].
    intros e. apply hoare_pure. intros He.
    eapply hoare_bind; [apply IH|].
    intros es. cbv beta. apply hoare_pure. intros [Hes Hlen].
    apply hoare_ret. intros f Hf. split; [split|].
    + now constructor.
    + simpl. now rewrite Hlen.
    + unfold logged in *. now rewrite <- app_assoc.
Qed.

Lemma read_header_spec L E :
  hoare (logged L) read_header
    (fun o f => (header_ok o /\ commands o = []) /\
                logged (header_events ++ L) f) E.
Proof.
  unfold read_header. hoare_fields. apply hoare_ret. intros f Hf.
  split; [split; [|reflexivity]|exact Hf]. unfold header_ok; simpl. conjuncts.
Qed.

Lemma read_command_spec L :
  hoare (logged L) read_command
    (fun c f => well_formed c /\ logged (command_events c ++ L) f)
    (fun t f => ~ recognized t /\ logged (io_read 4 :: io_read 4 :: L) f).
Proof.
  unfold read_command.
  eapply hoare_bind; [apply read_u32_spec|].
  intros tag. apply hoare_pure. intros Htag.
  eapply hoare_bind; [apply read_u32_spec|].
  intros sz. apply hoare_pure. intros Hsz.
  assert (Hlog : forall ev f,
             logged (ev ++ io_read 4 :: io_read 4 :: L) f ->
             logged ((ev ++ [io_read 4; io_read 4]) ++ L) f).
  { intros ev f Hf. unfold logged in *. now rewrite <- app_assoc. }
  destruct (tag =? LC_SEGMENT_64) eqn:E1;
    [|destruct (tag =? LC_DYSYMTAB) eqn:E2;
      [|destruct (tag =? LC_SYMTAB) eqn:E3;
        [|destruct (tag =? LC_BUILD_VERSION) eqn:E4]]].
  - apply Z.eqb_eq in E1.
    eapply hoare_bind; [apply read_segment_spec|].
    intros s'. cbv beta. apply hoare_pure. intros [Hs Hn].
    apply hoare_ret. intros f Hf. split; [|now apply Hlog].
    unfold well_formed, command_ok, tagged, unresolved; simpl. tauto.
  - apply Z.eqb_eq in E2.
    eapply hoare_bind; [apply read_dysymtab_spec|].
    intros d. cbv beta. apply hoare_pure. intros Hd.
    apply hoare_ret. intros f Hf. split; [|now apply Hlog].
    unfold well_formed, command_ok, tagged, unresolved; simpl. tauto.
  - apply Z.eqb_eq in E3.
    eapply hoare_bind; [apply read_symtab_spec|].
    intros s'. cbv beta. apply hoare_pure. intros (Hs & Hstr & Hsym).
    apply hoare_ret. intros f Hf. split; [|now apply Hlog].
    unfold well_formed, command_ok, tagged, unresolved; simpl.
    rewrite Hsym. tauto.
  - apply Z.eqb_eq in E4.
    eapply hoare_bind; [apply read_build_version_spec|].
    intros b. cbv beta. apply hoare_pure. intros Hb.
    apply hoare_ret. intros f Hf. split; [|now apply Hlog].
    unfold well_formed, command_ok, tagged, unresolved; simpl. tauto.
  - apply hoare_exit. intros f Hf. split; [|exact Hf].
    apply Z.eqb_neq in E1, E2, E3, E4. unfold recognized. tauto.
Qed.

Lemma read_commands_spec n : forall L,
  hoare (logged L) (read_commands n)
    (fun cs f => (Forall well_formed cs /\ length cs = n) /\
                 logged (commands_events cs ++ L) f)
    (fun t f => ~ recognized t).
Proof.
  induction n as [|n IH]; intros L; simpl.
  - apply hoare_ret. intros f Hf.
    split; [split; [constructor|reflexivity]|exact Hf].
  - eapply hoare_bind.
    { eapply hoare_weaken; [apply read_command_spec| |].
      - intros c f H. exact H.
      - intros t f [H _]. exact H. }
    intros c. apply hoare_pure. intros Hc.
    eapply hoare_bind; [apply IH|].
    intros cs. cbv beta. apply hoare_pure. intros [Hcs Hlen].
    apply hoare_ret. intros f Hf. split; [split|].
    + now constructor.
    + simpl. now rewrite Hlen.
    + unfold logged in *. simpl. now rewrite <- app_assoc.
Qed.

Lemma well_formed_decoded (c : load_command_t) : well_formed c -> decoded c.
Proof. unfold well_formed, decoded. tauto. Qed.

Lemma forget_unresolved (c : load_command_t) :
  unresolved c -> forget_symbols c = c.
Proof.
  unfold unresolved, forget_symbols.
  destruct c as [t z [s|b|s|d]]; simpl; try reflexivity.
  destruct s; simpl. intros [? ?]. subst. reflexivity.
Qed.

Lemma map_forget_unresolved (cs : list load_command_t) :
  Forall unresolved cs -> map forget_symbols cs = cs.
Proof.
  induction 1 as [|c cs Hc _ IH]; simpl; [reflexivity|].
  now rewrite forget_unresolved, IH.
Qed.

(** ** The second loop *)

Lemma fseek_spec L off E :
  hoare (logged L) (fseek off) (fun _ f => logged (io_seek off :: L) f) E.
Proof. intros f Hf. unfold logged in *. simpl. now rewrite Hf. Qed.

Lemma resolve_command_spec (c : load_command_t) (st : symtab_command_t) L E :
  hoare (logged L) (resolve_command c st)
    (fun c' f =>
       (exists es, c' = attach c st es /\ Forall entry_ok es /\
                   length es = Z.to_nat (nsyms st)) /\
       logged (resolve_events st ++ L) f) E.
Proof.
  unfold resolve_command.
  eapply hoare_bind; [apply fseek_spec|]. intros ?.
  eapply hoare_bind; [apply fread_spec|].
  intros buffer. apply hoare_pure. intros ?.
  eapply hoare_bind; [apply fseek_spec|]. intros ?.
  eapply hoare_bind; [apply read_entries_spec|].
  intros es. cbv beta. apply hoare_pure. intros [Hes Hlen].
  apply hoare_ret. intros f Hf. split.
  - exists es. now repeat split.
  - unfold logged, resolve_events in *. now rewrite <- app_assoc.
Qed.

Lemma resolve_symtab_none (cs : list load_command_t) (f : FILE) :
  (forall c, In c cs -> cmd c <> LC_SYMTAB) ->
  resolve_symtab cs f = Done cs f.
Proof.
  revert f. induction cs as [|c cs IH]; intros f H; simpl; [reflexivity|].
  rewrite (proj2 (Z.eqb_neq _ _)) by (apply H; now left).
  unfold bind. rewrite IH; [reflexivity|].
  intros c' Hc'. apply H. now right.
Qed.

Lemma resolve_symtab_first (pre post : list load_command_t)
  (c : load_command_t) (st : symtab_command_t) (f : FILE) :
  (forall c', In c' pre -> cmd c' <> LC_SYMTAB) ->
  cmd c = LC_SYMTAB -> body c = cmd_symtab st ->
  resolve_symtab (pre ++ c :: post) f =
  match resolve_command c st f with
  | Done c' f' => Done (pre ++ c' :: post) f'
  | Exit tag f' => Exit tag f'
  end.
Proof.
  intros Hpre Hc Hb. revert f.
  induction pre as [|p pre IH]; intros f; simpl.
  - rewrite Hc, Z.eqb_refl, Hb. unfold bind.
    destruct (resolve_command c st f); reflexivity.
  - rewrite (proj2 (Z.eqb_neq _ _)) by (apply Hpre; now left).
    unfold bind. rewrite IH by (intros c' Hc'; apply Hpre; now right).
    destruct (resolve_command c st f); reflexivity.
Qed.

(** A list of commands has no symbol table command, or a first one. *)
Lemma first_symtab_split (cs : list load_command_t) :
  (forall c, In c cs -> cmd c <> LC_SYMTAB) \/
  exists pre c post,
    cs = pre ++ c :: post /\
    (forall c', In c' pre -> cmd c' <> LC_SYMTAB) /\ cmd c = LC_SYMTAB.
Proof.
  induction cs as [|c cs IH].
  - left. intros c [].
  - destruct (Z.eq_dec (cmd c) LC_SYMTAB) as [E|E].
    + right. exists [], c, cs. repeat split; [intros c' []|exact E].
    + destruct IH as [IH|(pre & c0 & post & -> & Hpre & Hc0)].
      * left. intros c' [<-|H]; [exact E|now apply IH].
      * right. exists (c :: pre), c0, post. repeat split; [|exact Hc0].
        intros c' [<-|H]; [exact E|now apply Hpre].
Qed.

Lemma first_symtab_unique (pre pre' post post' : list load_command_t)
  (c c' : load_command_t) :
  pre ++ c :: post = pre' ++ c' :: post' ->
  (forall x, In x pre -> cmd x <> LC_SYMTAB) -> cmd c = LC_SYMTAB ->
  (forall x, In x pre' -> cmd x <> LC_SYMTAB) -> cmd c' = LC_SYMTAB ->
  pre = pre' /\ c = c' /\ post = post'.
Proof.
  revert pre'. induction pre as [|p pre IH]; intros [|p' pre'] E H1 Hc H2 Hc';
    simpl in E; injection E as E1 E2.
  - now subst.
  - subst p'. exfalso. apply (H2 c); [now left|exact Hc].
  - subst p. exfalso. apply (H1 c'); [now left|exact Hc'].
  - subst p'. destruct (IH pre' E2) as (-> & -> & ->); auto.
    + intros x Hx. apply H1. now right.
    + intros x Hx. apply H2. now right.
Qed.

Lemma tagged_symtab (c : load_command_t) :
  tagged c -> cmd c = LC_SYMTAB -> exists st, body c = cmd_symtab st.
Proof.
  destruct tags_ok as (_ & _ & ? & ? & ? & ? & ?).
  unfold tagged. destruct (body c) as [s|b|s|d]; intros Ht Hc.
  - congruence.
  - congruence.
  - now exists s.
  - unfold LC_SYMTAB, LC_DYSYMTAB in *. congruence.
Qed.

Lemma attach_decoded (c : load_command_t) (st : symtab_command_t) es :
  well_formed c -> body c = cmd_symtab st -> Forall entry_ok es ->
  decoded (attach c st es).
Proof.
  unfold well_formed, decoded, command_ok, tagged, unresolved, attach.
  intros H Hb Hes. rewrite Hb in H. unfold symtab_ok in *. simpl in *. tauto.
Qed.

Lemma forget_attach (c : load_command_t) (st : symtab_command_t) es :
  unresolved c -> body c = cmd_symtab st -> forget_symbols (attach c st es) = c.
Proof.
  unfold unresolved, forget_symbols, attach.
  destruct c as [t z u]; simpl. intros H ->. destruct st; simpl in *.
  destruct H; subst. reflexivity.
Qed.

(** What the second loop does to a list that came out of the first. *)
Lemma resolve_symtab_cases (cs : list load_command_t) (f : FILE) :
  Forall well_formed cs ->
  ((forall c, In c cs -> cmd c <> LC_SYMTAB) /\
   resolve_symtab cs f = Done cs f) \/
  exists pre c st post es f',
    cs = pre ++ c :: post /\
    (forall c', In c' pre -> cmd c' <> LC_SYMTAB) /\
    cmd c = LC_SYMTAB /\ body c = cmd_symtab st /\
    resolve_symtab cs f = Done (pre ++ attach c st es :: post) f' /\
    Forall entry_ok es /\ length es = Z.to_nat (nsyms st) /\
    log f' = resolve_events st ++ log f.
Proof.
  intros Hcs.
  destruct (first_symtab_split cs) as [H|(pre & c & post & -> & Hpre & Hc)].
  - left. split; [exact H|now apply resolve_symtab_none].
  - right.
    assert (Hwf : well_formed c).
    { rewrite Forall_forall in Hcs. apply Hcs, in_elt. }
    destruct (tagged_symtab c) as [st Hb]; [apply Hwf|exact Hc|].
    pose proof (resolve_command_spec c st (log f) (fun _ _ => False) f eq_refl)
      as Hr.
    rewrite (resolve_symtab_first pre post c st f Hpre Hc Hb).
    destruct (resolve_command c st f) as [c' f'|]; [|contradiction].
    destruct Hr as [(es & -> & Hes & Hlen) Hlog].
    exists pre, c, st, post, es, f'. repeat split; assumption.
Qed.

Lemma resolve_symtab_decoded (cs cs' : list load_command_t) (f f' : FILE) :
  Forall well_formed cs -> resolve_symtab cs f = Done cs' f' ->
  Forall decoded cs' /\ map forget_symbols cs' = cs.
Proof.
  intros Hcs E.
  assert (Hun : Forall unresolved cs).
  { eapply Forall_impl; [|exact Hcs]. intros c Hc. apply Hc. }
  assert (Hdec : Forall decoded cs).
  { eapply Forall_impl; [|exact Hcs]. apply well_formed_decoded. }
  destruct (resolve_symtab_cases cs f Hcs)
    as [[_ E']|(pre & c & st & post & es & g & -> & _ & _ & Hb & E' & Hes & _)];
    rewrite E' in E; injection E as <- <-.
  - split; [exact Hdec|now apply map_forget_unresolved].
  - apply Forall_app in Hcs as [Hpre Hcs]. inversion Hcs as [|? ? Hc Hpost]; subst.
    apply Forall_app in Hun as [Upre Hun]. inversion Hun as [|? ? Uc Upost]; subst.
    apply Forall_app in Hdec as [Dpre Hdec]. inversion Hdec as [|? ? Dc Dpost]; subst.
    split.
    + apply Forall_app. split; [exact Dpre|]. constructor; [|exact Dpost].
      now apply attach_decoded.
    + rewrite map_app. simpl.
      rewrite (map_forget_unresolved pre), (map_forget_unresolved post)
        by assumption.
      now rewrite forget_attach.
Qed.

Lemma total_resolve_symtab (cs : list load_command_t) (f : FILE) :
  Forall well_formed cs -> exists cs' f', resolve_symtab cs f = Done cs' f'.
Proof.
  intros Hcs.
  destruct (resolve_symtab_cases cs f Hcs)
    as [[_ E]|(pre & c & st & post & es & g & _ & _ & _ & _ & E & _)];
    rewrite E; eauto.
Qed.

(** The three stages of a run of [parse_file] that returned. *)
Lemma parse_file_run (data : list byte) (o : mach_object_file_t) (g : FILE) :
  parse_file data = Done o g ->
  exists h f1 cs f2,
    read_header (fopen data) = Done h f1 /\
    header_ok h /\ log f1 = header_events /\
    read_commands (Z.to_nat (number_of_load_commands h)) f1 = Done cs f2 /\
    Forall well_formed cs /\
    length cs = Z.to_nat (number_of_load_commands h) /\
    log f2 = commands_events cs ++ header_events /\
    resolve_symtab cs f2 = Done (commands o) g /\
    o = set_commands h (commands o).
Proof.
  unfold parse_file, parse_stream, bind. intros E.
  pose proof (read_header_spec [] (fun _ _ => False) (fopen data) eq_refl) as Hh.
  destruct (read_header (fopen data)) as [h f1|] eqn:Eh; [|contradiction].
  destruct Hh as [[Hh _] L1]. unfold logged in L1. rewrite app_nil_r in L1.
  pose proof (read_commands_spec (Z.to_nat (number_of_load_commands h))
                header_events f1 L1) as Hc.
  destruct (read_commands _ f1) as [cs f2|] eqn:Ec; [|discriminate].
  destruct Hc as [[Hcs Hlen] L2].
  destruct (resolve_symtab cs f2) as [cs' f3|] eqn:Er; [|discriminate].
  injection E as <- <-.
  exists h, f1, cs, f2.
  repeat (split; [first [reflexivity | assumption]|]). reflexivity.
Qed.

Lemma parse_file_decoded (data : list byte) (o : mach_object_file_t) (g : FILE) :
  parse_file data = Done o g -> decoded_object o.
Proof.
  intros E.
  destruct (parse_file_run data o g E)
    as (h & f1 & cs & f2 & _ & Hh & _ & _ & Hcs & Hlen & _ & Er & Ho).
  destruct (resolve_symtab_decoded cs _ f2 g Hcs Er) as [Hdec Hmap].
  rewrite Ho. unfold decoded_object. simpl. split; [exact Hh|]. split.
  - rewrite <- Hlen, <- Hmap. now rewrite length_map.
  - exact Hdec.
Qed.

Lemma seeks_app (L1 L2 : list io_event) :
  seeks (L1 ++ L2) = seeks L1 ++ seeks L2.
Proof.
  induction L1 as [|[n|off] L1 IH]; simpl; [reflexivity|exact IH|].
  now rewrite IH.
Qed.

Lemma seeks_sections_events (n : nat) : seeks (sections_events n) = [].
Proof.
  induction n as [|n IH]; simpl; [reflexivity|].
  now rewrite seeks_app, IH.
Qed.

Lemma seeks_commands_events (cs : list load_command_t) :
  seeks (commands_events cs) = [].
Proof.
  induction cs as [|c cs IH]; simpl; [reflexivity|].
  rewrite seeks_app, IH. unfold command_events. rewrite seeks_app.
  destruct (body c); simpl; try reflexivity.
  now rewrite seeks_app, seeks_sections_events.
Qed.

Lemma seeks_entries_events (n : nat) : seeks (entries_events n) = [].
Proof.
  induction n as [|n IH]; simpl; [reflexivity|].
  now rewrite seeks_app, IH.
Qed.

Lemma seeks_resolve_events (st : symtab_command_t) :
  seeks (resolve_events st) = [Z.to_nat (symoff st); Z.to_nat (stroff st)].
Proof.
  unfold resolve_events. now rewrite seeks_app, seeks_entries_events.
Qed.

(** ** The properties of the decoder *)

(** C1.  Round trip on well-formed input: a stream made of a header that
    declares [k] commands, [k] well-formed commands with recognized tags
    and anything after them decodes to [k] load commands, in the order
    of the stream; the header, and the tag, the declared size and every
    member of the body of each command, with each section of a segment,
    are the values that were written. *)
Theorem decode_round_trip (h : mach_object_file_t)
  (cs : list load_command_t) (tail : list byte) :
  header_ok h -> Forall well_formed cs ->
  number_of_load_commands h = Z.of_nat (length cs) ->
  exists o f,
    parse_file (encode_header h ++ encode_commands cs ++ tail) = Done o f /\
    set_commands o [] = set_commands h [] /\
    length (commands o) = length cs /\
    map forget_symbols (commands o) = cs.
Proof.
  intros Hh Hcs Hn.
  destruct (reads_header h Hh
              (fopen (encode_header h ++ encode_commands cs ++ tail))
              (encode_commands cs ++ tail) eq_refl)
    as (f1 & E1 & _ & _ & R1).
  destruct (reads_commands cs Hcs f1 tail R1) as (f2 & E2 & _).
  destruct (total_resolve_symtab cs f2 Hcs) as (cs' & f3 & E3).
  destruct (resolve_symtab_decoded cs cs' f2 f3 Hcs E3) as [_ Hmap].
  exists (set_commands (set_commands h []) cs'), f3.
  unfold parse_file, parse_stream, bind. rewrite E1. simpl.
  rewrite Hn, Nat2Z.id, E2, E3.
  split; [reflexivity|]. split; [reflexivity|]. split; [|exact Hmap].
  simpl. rewrite <- Hmap. symmetry. apply length_map.
Qed.

Lemma commands_events_app (l1 l2 : list load_command_t) :
  commands_events (l1 ++ l2) = commands_events l2 ++ commands_events l1.
Proof.
  induction l1 as [|c l1 IH]; simpl; [now rewrite app_nil_r|].
  now rewrite IH, app_assoc.
Qed.

Lemma commands_events_attach (pre post : list load_command_t)
  (c : load_command_t) (st : symtab_command_t) (es : list nlist_64_t) :
  body c = cmd_symtab st ->
  commands_events (pre ++ attach c st es :: post) =
  commands_events (pre ++ c :: post).
Proof.
  intros Hb. rewrite !commands_events_app. simpl.
  unfold command_events. simpl. now rewrite Hb.
Qed.

(** C6.  The first symbol table wins: when [parse_file] returns and
    [c1] is the first command tagged [LC_SYMTAB], the symbol entries are
    attached to [c1]; after the reads of the header and of the commands,
    the calls on the stream are those for [c1] and no other: the stream
    was positioned twice only, at the [stroff] and then at the [symoff]
    of [c1]; and every command after [c1], a further symbol table
    command included, is as the first loop left it: no table
    attached. *)
Theorem first_symtab_wins (data : list byte) (o : mach_object_file_t)
  (g : FILE) (pre post : list load_command_t) (c1 : load_command_t) :
  parse_file data = Done o g ->
  commands o = pre ++ c1 :: post ->
  (forall c, In c pre -> cmd c <> LC_SYMTAB) ->
  cmd c1 = LC_SYMTAB ->
  (exists st es,
      body c1 = cmd_symtab st /\ symbol_table st = Some es /\
      length es = Z.to_nat (nsyms st) /\
      log g = resolve_events st ++ commands_events (commands o) ++
              header_events /\
      seeks (log g) = [Z.to_nat (symoff st); Z.to_nat (stroff st)]) /\
  Forall unresolved post.
Proof.
  intros E Hsplit Hpre Hc1.
  destruct (parse_file_run data o g E)
    as (h & f1 & cs & f2 & _ & _ & _ & _ & Hcs & _ & L2 & Er & _).
  destruct (resolve_symtab_cases cs f2 Hcs)
    as [[Hnone E']|(pre0 & c0 & st & post0 & es & g' & -> & Hpre0 & Hc0 & Hb &
                    E' & Hes & Hlen & Hlog)];
    rewrite E' in Er; injection Er as Ho <-.
  - exfalso. apply (Hnone c1); [|exact Hc1].
    rewrite Ho, Hsplit. apply in_elt.
  - rewrite Hsplit in Ho.
    destruct (first_symtab_unique pre0 pre post0 post (attach c0 st es) c1 Ho)
      as (-> & <- & ->); try assumption.
    split.
    + eexists _, es. simpl. repeat split; [exact Hlen| |].
      * rewrite Hlog, L2, Hsplit. now rewrite commands_events_attach.
      * rewrite Hlog, L2, !seeks_app, seeks_resolve_events,
          seeks_commands_events.
        reflexivity.
    + apply Forall_app in Hcs as [_ Hcs]. inversion Hcs as [|? ? _ Hpost]; subst.
      eapply Forall_impl; [|exact Hpost]. intros c Hc. apply Hc.
Qed.

(** C7.  Without a symbol table command the second loop does nothing:
    it returns the commands it was given and leaves the stream as it
    was, with no call logged; it does not leave through [exit]. *)
Theorem no_symtab_no_op (cs : list load_command_t) (f : FILE) :
  (forall c, In c cs -> cmd c <> LC_SYMTAB) ->
  resolve_symtab cs f = Done cs f.
Proof. apply resolve_symtab_none. Qed.

Lemma read_commands_app (a b : nat) (f : FILE) :
  read_commands (a + b) f =
  (xs <- read_commands a ;; ys <- read_commands b ;; ret (xs ++ ys)) f.
Proof.
  revert f. induction a as [|a IH]; intros f; simpl.
  - unfold bind, ret. destruct (read_commands b f); reflexivity.
  - unfold bind at 1 3 4. destruct (read_command f) as [c f1|]; [|reflexivity].
    unfold bind at 1 3. rewrite IH. unfold bind, ret.
    destruct (read_commands a f1) as [xs f2|]; [|reflexivity].
    destruct (read_commands b f2); reflexivity.
Qed.

Lemma read_u32_run (f : FILE) :
  read_u32 f =
  Done (le_to_Z (store (uninit_bytes 4)
                   (firstn 4 (skipn (pos f) (contents f)))))
       {| contents := contents f;
          pos := (pos f + length (firstn 4 (skipn (pos f) (contents f))))%nat;
          log := io_read 4 :: log f |}.
Proof. reflexivity. Qed.

Lemma read_command_unknown (f : FILE) (tag : Z) (tail : list byte) :
  u32_range tag -> ~ recognized tag ->
  skipn (pos f) (contents f) = Z_to_le 4 tag ++ tail ->
  exists f',
    read_command f = Exit tag f' /\
    pos f' = (pos f + 4 + Nat.min 4 (length tail))%nat /\
    log f' = io_read 4 :: io_read 4 :: log f.
Proof.
  intros Htag Hun Hf.
  destruct (reads_u32 tag Htag f tail Hf) as (f1 & E1 & _ & P1 & R1).
  pose proof (read_u32_spec (log f) (fun _ _ => False) f eq_refl) as L1.
  rewrite E1 in L1. destruct L1 as [_ L1]. unfold logged in L1.
  unfold read_command. unfold bind at 1. rewrite E1.
  unfold bind at 1. rewrite read_u32_run.
  unfold recognized in Hun.
  rewrite !(proj2 (Z.eqb_neq tag _)) by tauto.
  eexists. split; [reflexivity|]. cbn [pos log contents].
  rewrite R1, P1, L1, length_firstn, length_Z_to_le. now split.
Qed.

Lemma length_encode_header (h : mach_object_file_t) :
  length (encode_header h) = 32%nat.
Proof.
  unfold encode_header. rewrite !length_app, !length_Z_to_le. reflexivity.
Qed.

(** C4.  Unknown tag: when the commands before it are well-formed and
    the header declares more commands than those, a tag outside the
    four recognized ones makes [parse_file] leave through [exit] with
    that tag; nothing is returned, and the last two calls on the stream
    are the reads of the tag and of the declared size: no byte after
    them is consumed, and the unknown command is not skipped. *)
Theorem unknown_tag_rejected (h : mach_object_file_t)
  (pre : list load_command_t) (tag : Z) (tail : list byte) :
  header_ok h -> Forall well_formed pre ->
  (length pre < Z.to_nat (number_of_load_commands h))%nat ->
  u32_range tag -> ~ recognized tag ->
  exists f,
    parse_file (encode_header h ++ encode_commands pre ++
                Z_to_le 4 tag ++ tail) = Exit tag f /\
    pos f = (32 + length (encode_commands pre) + 4 +
             Nat.min 4 (length tail))%nat /\
    log f = io_read 4 :: io_read 4 :: commands_events pre ++ header_events.
Proof.
  intros Hh Hpre Hn Htag Hun.
  set (data := encode_header h ++ encode_commands pre ++ Z_to_le 4 tag ++ tail).
  destruct (reads_header h Hh (fopen data) _ eq_refl)
    as (f1 & E1 & _ & P1 & R1).
  pose proof (read_header_spec [] (fun _ _ => False) (fopen data) eq_refl) as L1.
  rewrite E1 in L1. destruct L1 as [_ L1]. unfold logged in L1.
  rewrite app_nil_r in L1.
  destruct (reads_commands pre Hpre f1 _ R1) as (f2 & E2 & _ & P2 & R2).
  pose proof (read_commands_spec (length pre) (log f1) f1 eq_refl) as L2.
  rewrite E2 in L2. destruct L2 as [_ L2]. unfold logged in L2.
  destruct (read_command_unknown f2 tag tail Htag Hun R2)
    as (f3 & E3 & P3 & L3).
  exists f3. split; [|split].
  - unfold parse_file, parse_stream. unfold bind at 1. rewrite E1.
    unfold bind at 1. simpl number_of_load_commands.
    replace (Z.to_nat (number_of_load_commands h))
      with (length pre + S (Z.to_nat (number_of_load_commands h)
                            - length pre - 1))%nat by lia.
    rewrite read_commands_app. unfold bind at 1. rewrite E2.
    unfold bind at 1. simpl read_commands. unfold bind at 1. rewrite E3.
    reflexivity.
  - rewrite P3, P2, P1, length_encode_header. simpl. lia.
  - now rewrite L3, L2, L1.
Qed.

(** ** Short reads *)

Lemma fread_min (n a : nat) (d : list byte) (lg : list io_event) :
  fread n {| contents := d; pos := Nat.min a (length d); log := lg |} =
  Done (firstn n (skipn a d))
       {| contents := d; pos := Nat.min (a + n) (length d);
          log := io_read n :: lg |}.
Proof.
  unfold fread. simpl.
  assert (E : skipn (Nat.min a (length d)) d = skipn a d).
  { destruct (Nat.le_gt_cases a (length d)) as [H|H].
    - now rewrite Nat.min_l.
    - rewrite Nat.min_r by lia. now rewrite !skipn_all2 by lia. }
  rewrite E. f_equal. f_equal.
  rewrite length_firstn, length_skipn. lia.
Qed.

Lemma read_u32_static_min (a : nat) (d : list byte) (lg : list io_event) :
  read_u32_static {| contents := d; pos := Nat.min a (length d); log := lg |} =
  Done (le_to_Z (store (repeat x00 4) (firstn 4 (skipn a d))))
       {| contents := d; pos := Nat.min (a + 4) (length d);
          log := io_read 4 :: lg |}.
Proof.
  unfold read_u32_static, fread_static, bind. now rewrite fread_min.
Qed.

(** [read_header] does not fail: on a file of any length it returns the
    header whose missing bytes are zero. *)
Lemma read_header_run (data : list byte) :
  read_header (fopen data) =
  Done (header_of data)
       {| contents := data; pos := Nat.min 32 (length data);
          log := header_events |}.
Proof.
  change (fopen data)
    with {| contents := data; pos := Nat.min 0 (length data); log := [] |}.
  unfold read_header.
  do 8 (unfold bind at 1; rewrite read_u32_static_min; cbv beta iota).
  reflexivity.
Qed.

Lemma parse_file_exit (data : list byte) (tag : Z) (f : FILE) :
  parse_file data = Exit tag f -> ~ recognized tag.
Proof.
  unfold parse_file, parse_stream. unfold bind at 1.
  rewrite read_header_run. unfold bind at 1.
  set (f1 := {| contents := data; pos := _; log := _ |}).
  pose proof (read_commands_spec
                (Z.to_nat (number_of_load_commands (header_of data)))
                (log f1) f1 eq_refl) as Hc.
  destruct (read_commands _ f1) as [cs f2|t f2].
  - destruct Hc as [[Hcs _] _].
    destruct (total_resolve_symtab cs f2 Hcs) as (cs' & f3 & E3).
    unfold bind. rewrite E3. discriminate.
  - intros E. injection E as <- _. exact Hc.
Qed.

(** C2, as the code has it.  [parse_file] never fails for want of bytes:
    it leaves through [exit] with an unrecognized tag only, and a file
    that ends within the first four words of the header is decoded, to
    the header whose missing bytes are zero and to no command. *)
Theorem truncation_not_detected (data : list byte) :
  (forall tag f, parse_file data = Exit tag f -> ~ recognized tag) /\
  ((length data <= 16)%nat ->
   number_of_load_commands (header_of data) = 0 /\
   parse_file data =
   Done (header_of data)
        {| contents := data; pos := length data; log := header_events |}).
Proof.
  split; [intros tag f; apply parse_file_exit|].
  intros Hlen.
  assert (E : number_of_load_commands (header_of data) = 0).
  { simpl. unfold header_word. now rewrite skipn_all2 by (simpl; lia). }
  split; [exact E|].
  unfold parse_file, parse_stream. unfold bind at 1.
  rewrite read_header_run, (Nat.min_r 32 (length data)) by lia.
  unfold bind at 1. rewrite E. reflexivity.
Qed.

(** C3.  The string table is not attached: whatever the file, after
    [parse_file] the member [string_table] of every symbol table command
    is still unassigned. *)
Theorem string_table_never_attached (data : list byte)
  (o : mach_object_file_t) (g : FILE) (c : load_command_t)
  (st : symtab_command_t) :
  parse_file data = Done o g -> In c (commands o) ->
  body c = cmd_symtab st -> string_table st = None.
Proof.
  intros E Hc Hb.
  destruct (parse_file_run data o g E)
    as (h & f1 & cs & f2 & _ & _ & _ & _ & Hcs & _ & _ & Er & _).
  destruct (resolve_symtab_decoded cs _ f2 g Hcs Er) as [_ Hmap].
  apply (in_map forget_symbols) in Hc. rewrite Hmap in Hc.
  rewrite Forall_forall in Hcs. destruct (Hcs _ Hc) as (_ & _ & Hun & _).
  unfold unresolved, forget_symbols in Hun. rewrite Hb in Hun. simpl in Hun.
  apply Hun.
Qed.

(** ** Two runs side by side *)

Lemma rel2_ret {A} RS (RV : A -> A -> Prop) (a1 a2 : A) :
  RV a1 a2 -> rel2 RS RV (ret a1) (ret a2).
Proof. intros H f1 f2 Hf. simpl. now split. Qed.

Lemma rel2_bind {A B} RS (RV : A -> A -> Prop) (RW : B -> B -> Prop)
  (m1 m2 : io A) (k1 k2 : A -> io B) :
  rel2 RS RV m1 m2 ->
  (forall a1 a2, RV a1 a2 -> rel2 RS RW (k1 a1) (k2 a2)) ->
  rel2 RS RW (bind m1 k1) (bind m2 k2).
Proof.
  intros Hm Hk f1 f2 Hf. unfold bind. specialize (Hm f1 f2 Hf).
  destruct (m1 f1) as [a1 g1|t1 g1], (m2 f2) as [a2 g2|t2 g2];
    try contradiction; [|exact Hm].
  destruct Hm as [Ha Hg]. exact (Hk a1 a2 Ha g1 g2 Hg).
Qed.

Lemma rel2_exit {A} RS (RV : A -> A -> Prop) (tag : Z) :
  rel2 RS RV (exit_failure tag) (exit_failure tag).
Proof. intros f1 f2 Hf. simpl. now split. Qed.

Lemma sequential_bind {A B} (m : io A) (k : A -> io B) :
  sequential m -> (forall a, sequential (k a)) -> sequential (bind m k).
Proof.
  intros Hm Hk. eapply rel2_bind; [exact Hm|]. intros a ? <-. apply Hk.
Qed.

Lemma sequential_ret {A} (a : A) : sequential (ret a).
Proof. now apply rel2_ret. Qed.

Lemma shapely_bind {A B} (m : io A) (k1 k2 : A -> io B) :
  shapely m ->
  (forall a1 a2, rel2 same_shape (fun _ _ => True) (k1 a1) (k2 a2)) ->
  rel2 same_shape (fun _ _ => True) (bind m k1) (bind m k2).
Proof.
  intros Hm Hk. eapply rel2_bind; [exact Hm|]. intros a1 a2 _. apply Hk.
Qed.

Lemma shapely_ret {A} (a1 a2 : A) :
  rel2 same_shape (fun _ _ => True) (ret a1) (ret a2).
Proof. now apply rel2_ret. Qed.

Lemma sequential_fread (n : nat) : sequential (fread n).
Proof.
  intros f1 f2 (Hp & Hl & Hr). unfold fread. cbv zeta.
  rewrite Hr. split; [reflexivity|]. unfold seq_equiv. cbn [pos log contents].
  split; [now rewrite Hp|]. split; [now rewrite Hl|].
  rewrite (Nat.add_comm (pos f1)), (Nat.add_comm (pos f2)).
  rewrite <- !skipn_skipn. now rewrite Hr.
Qed.

Lemma shapely_fread (n : nat) : shapely (fread n).
Proof.
  intros f1 f2 (Hp & Hl & Hr). unfold fread. cbv zeta.
  split; [exact I|]. unfold same_shape. cbn [pos log contents].
  split; [|split; [now rewrite Hl|exact Hr]].
  rewrite !length_firstn, !length_skipn. lia.
Qed.

Lemma preserves_ret {A} (a : A) : preserves (ret a).
Proof. intros f. reflexivity. Qed.

Lemma preserves_exit {A} (tag : Z) : preserves (@exit_failure A tag).
Proof. intros f. reflexivity. Qed.

Lemma preserves_fread (n : nat) : preserves (fread n).
Proof. intros f. reflexivity. Qed.

Lemma preserves_fseek (off : nat) : preserves (fseek off).
Proof. intros f. reflexivity. Qed.

Lemma preserves_bind {A B} (m : io A) (k : A -> io B) :
  preserves m -> (forall a, preserves (k a)) -> preserves (bind m k).
Proof.
  intros Hm Hk f. unfold bind. specialize (Hm f).
  destruct (m f) as [a f'|t f']; [|exact Hm].
  specialize (Hk a f'). destruct (k a f'); congruence.
Qed.

(** The readers are built from [fread], [ret] and [bind]: the three
    properties go through them member by member. *)
Ltac through :=
  repeat match goal with
  | |- sequential (ret _) => apply sequential_ret
  | |- sequential (exit_failure _) => apply rel2_exit
  | |- sequential (fread _) => apply sequential_fread
  | |- sequential (bind _ _) => apply sequential_bind; [|intros ?; cbv beta]
  | |- shapely (ret _) => apply shapely_ret
  | |- shapely (fread _) => apply shapely_fread
  | |- shapely (bind _ _) => apply shapely_bind; [|intros ? ?; cbv beta]
  | |- rel2 same_shape _ (ret _) (ret _) => apply shapely_ret
  | |- rel2 same_shape _ (bind _ _) (bind _ _) =>
      apply shapely_bind; [|intros ? ?; cbv beta]
  | |- preserves (ret _) => apply preserves_ret
  | |- preserves (exit_failure _) => apply preserves_exit
  | |- preserves (fread _) => apply preserves_fread
  | |- preserves (fseek _) => apply preserves_fseek
  | |- preserves (bind _ _) => apply preserves_bind; [|intros ?; cbv beta]
  | |- context [if ?b then _ else _] => destruct b
  | H : ?G |- ?G => exact H
  end.

Lemma sequential_fread_local n : sequential (fread_local n).
Proof. unfold fread_local. through. Qed.

Lemma shapely_fread_local n : shapely (fread_local n).
Proof. unfold fread_local. through. Qed.

Lemma preserves_fread_local n : preserves (fread_local n).
Proof. unfold fread_local. through. Qed.

Lemma preserves_fread_static n : preserves (fread_static n).
Proof. unfold fread_static. through. Qed.

Lemma sequential_u8 : sequential read_u8.
Proof. unfold read_u8. through; apply sequential_fread_local. Qed.

Lemma sequential_u16 : sequential read_u16.
Proof. unfold read_u16. through; apply sequential_fread_local. Qed.

Lemma sequential_u32 : sequential read_u32.
Proof. unfold read_u32. through; apply sequential_fread_local. Qed.

Lemma sequential_u64 : sequential read_u64.
Proof. unfold read_u64. through; apply sequential_fread_local. Qed.

Lemma shapely_u8 : shapely read_u8.
Proof. unfold read_u8. through; apply shapely_fread_local. Qed.

Lemma shapely_u16 : shapely read_u16.
Proof. unfold read_u16. through; apply shapely_fread_local. Qed.

Lemma shapely_u32 : shapely read_u32.
Proof. unfold read_u32. through; apply shapely_fread_local. Qed.

Lemma shapely_u64 : shapely read_u64.
Proof. unfold read_u64. through; apply shapely_fread_local. Qed.

Lemma preserves_u8 : preserves read_u8.
Proof. unfold read_u8. through; apply preserves_fread_local. Qed.

Lemma preserves_u16 : preserves read_u16.
Proof. unfold read_u16. through; apply preserves_fread_local. Qed.

Lemma preserves_u32 : preserves read_u32.
Proof. unfold read_u32. through; apply preserves_fread_local. Qed.

Lemma preserves_u64 : preserves read_u64.
Proof. unfold read_u64. through; apply preserves_fread_local. Qed.

Lemma preserves_u32_static : preserves read_u32_static.
Proof. unfold read_u32_static. through; apply preserves_fread_static. Qed.

Ltac through_fields :=
  repeat first
    [ progress through
    | match goal with
          | |- sequential read_u8 => apply sequential_u8
          | |- sequential read_u16 => apply sequential_u16
          | |- sequential read_u32 => apply sequential_u32
          | |- sequential read_u64 => apply sequential_u64
          | |- sequential (fread_local _) => apply sequential_fread_local
          | |- shapely read_u8 => apply shapely_u8
          | |- shapely read_u16 => apply shapely_u16
          | |- shapely read_u32 => apply shapely_u32
          | |- shapely read_u64 => apply shapely_u64
          | |- preserves read_u8 => apply preserves_u8
          | |- preserves read_u16 => apply preserves_u16
          | |- preserves read_u32 => apply preserves_u32
          | |- preserves read_u64 => apply preserves_u64
          | |- preserves read_u32_static => apply preserves_u32_static
          | |- preserves (fread_local _) => apply preserves_fread_local
          end ].


Lemma preserves_section : preserves read_section.
Proof. unfold read_section. through_fields. Qed.


Lemma preserves_sections n : preserves (read_sections n).
Proof.
  induction n as [|n IH]; simpl; through_fields; exact preserves_section.
Qed.


Lemma preserves_segment : preserves read_segment.
Proof. unfold read_segment. through_fields; apply preserves_sections. Qed.


Lemma preserves_dysymtab : preserves read_dysymtab.
Proof. unfold read_dysymtab. through_fields. Qed.


Lemma preserves_symtab : preserves read_symtab.
Proof. unfold read_symtab. through_fields. Qed.


Lemma preserves_build_version : preserves read_build_version.
Proof. unfold read_build_version. through_fields. Qed.


Lemma preserves_command : preserves read_command.
Proof.
  unfold read_command. through_fields;
    match goal with
    | |- preserves read_segment => apply preserves_segment
    | |- preserves read_dysymtab => apply preserves_dysymtab
    | |- preserves read_symtab => apply preserves_symtab
    | |- preserves read_build_version => apply preserves_build_version
    end.
Qed.


Lemma preserves_commands n : preserves (read_commands n).
Proof.
  induction n as [|n IH]; simpl; through_fields; exact preserves_command.
Qed.

Lemma preserves_header : preserves read_header.
Proof. unfold read_header. through_fields. Qed.





(** ** Commands that differ in the declared size only *)












(** ** The second loop on two files *)

Lemma resolve_command_run (c : load_command_t) (st : symtab_command_t)
  (g : FILE) :
  resolve_command c st g =
  (es <- read_entries (Z.to_nat (nsyms st)) ;; ret (attach c st es))
    {| contents := contents g; pos := Z.to_nat (symoff st);
       log := io_seek (Z.to_nat (symoff st)) ::
              io_read (Z.to_nat (strsize st)) ::
              io_seek (Z.to_nat (stroff st)) :: log g |}.
Proof. reflexivity. Qed.



(** ** Two files *)

Lemma parse_file_unfold (data : list byte) :
  parse_file data =
  match read_commands (Z.to_nat (number_of_load_commands (header_of data)))
          {| contents := data; pos := Nat.min 32 (length data);
             log := header_events |} with
  | Done cs f2 =>
      match resolve_symtab cs f2 with
      | Done cs' g => Done (set_commands (header_of data) cs') g
      | Exit tag g => Exit tag g
      end
  | Exit tag f2 => Exit tag f2
  end.
Proof.
  unfold parse_file, parse_stream. unfold bind at 1.
  rewrite read_header_run. reflexivity.
Qed.

Lemma parse_file_stages (data : list byte) (h : mach_object_file_t)
  (a : FILE) :
  read_header (fopen data) = Done h a ->
  parse_file data =
  match read_commands (Z.to_nat (number_of_load_commands h)) a with
  | Done cs f2 =>
      match resolve_symtab cs f2 with
      | Done cs' g => Done (set_commands h cs') g
      | Exit tag g => Exit tag g
      end
  | Exit tag f2 => Exit tag f2
  end.
Proof.
  intros E. unfold parse_file, parse_stream, bind. rewrite E. reflexivity.
Qed.






Lemma cmd_size_forget (c : load_command_t) :
  cmd_size (forget_symbols c) = cmd_size c.
Proof. unfold forget_symbols. destruct (body c); reflexivity. Qed.

(** ** What the report shows *)

Lemma length_append (s t : string) :
  String.length (s ++ t) = (String.length s + String.length t)%nat.
Proof. induction s as [|a s IH]; simpl; [reflexivity|now rewrite IH]. Qed.

Lemma append_inj_l (s x y : string) : (s ++ x = s ++ y)%string -> x = y.
Proof.
  induction s as [|a s IH]; simpl; intros H; [exact H|].
  apply IH. now injection H.
Qed.

Lemma append_inj_r (t s1 s2 : string) : (s1 ++ t = s2 ++ t)%string -> s1 = s2.
Proof.
  revert s2. induction s1 as [|a s1 IH]; intros [|b s2] H; simpl in H.
  - reflexivity.
  - apply (f_equal String.length) in H. simpl in H.
    rewrite length_append in H. lia.
  - apply (f_equal String.length) in H. simpl in H.
    rewrite length_append in H. lia.
  - injection H as -> H. f_equal. now apply IH.
Qed.

Lemma hex_app_inj (n : nat) (a b : Z) (r1 r2 : string) :
  (hex n a ++ r1 = hex n b ++ r2)%string -> hex n a = hex n b /\ r1 = r2.
Proof.
  induction n as [|n IH]; cbn [hex append]; intros H; [now split|].
  injection H as Hd H. destruct (IH H) as [E1 E2]. now rewrite Hd, E1, E2.
Qed.

Lemma hex_val_digit (d : Z) : 0 <= d < 16 -> hex_val (hex_digit d) = d.
Proof.
  intros H.
  assert (C : d = 0 \/ d = 1 \/ d = 2 \/ d = 3 \/ d = 4 \/ d = 5 \/ d = 6 \/
              d = 7 \/ d = 8 \/ d = 9 \/ d = 10 \/ d = 11 \/ d = 12 \/
              d = 13 \/ d = 14 \/ d = 15) by lia.
  repeat (destruct C as [->|C]; [reflexivity|]). now subst.
Qed.

Lemma hex_mod (n : nat) (a b : Z) :
  hex n a = hex n b -> a mod 16 ^ Z.of_nat n = b mod 16 ^ Z.of_nat n.
Proof.
  induction n as [|n IH]; cbn [hex]; intros H.
  - now rewrite !Z.mod_1_r.
  - injection H as Hd H. specialize (IH H).
    apply (f_equal hex_val) in Hd.
    rewrite !hex_val_digit in Hd by (apply Z.mod_pos_bound; lia).
    rewrite Nat2Z.inj_succ, Z.pow_succ_r by lia.
    rewrite (Z.mul_comm 16), !Z.rem_mul_r by lia. now rewrite IH, Hd.
Qed.

Lemma hex8_inj (a b : Z) :
  u32_range a -> u32_range b -> hex 8 a = hex 8 b -> a = b.
Proof.
  intros Ha Hb H. apply hex_mod in H.
  change (16 ^ Z.of_nat 8) with (2 ^ 32) in H.
  now rewrite !Z.mod_small in H.
Qed.

Lemma hex16_inj (a b : Z) :
  u64_range a -> u64_range b -> hex 16 a = hex 16 b -> a = b.
Proof.
  intros Ha Hb H. apply hex_mod in H.
  change (16 ^ Z.of_nat 16) with (2 ^ 64) in H.
  now rewrite !Z.mod_small in H.
Qed.

Lemma line32_inj (label : string) (a b : Z) :
  u32_range a -> u32_range b -> line32 label a = line32 label b -> a = b.
Proof.
  intros Ha Hb H. unfold line32 in H.
  do 3 apply append_inj_l in H. apply hex_app_inj in H as [H _].
  now apply hex8_inj.
Qed.

Lemma line32_nl_inj (label : string) (a b : Z) :
  u32_range a -> u32_range b ->
  (line32 label a ++ nl = line32 label b ++ nl)%string -> a = b.
Proof.
  intros Ha Hb H. apply append_inj_r in H. now apply line32_inj in H.
Qed.

Lemma line64_inj (label : string) (a b : Z) :
  u64_range a -> u64_range b -> line64 label a = line64 label b -> a = b.
Proof.
  intros Ha Hb H. unfold line64 in H.
  do 3 apply append_inj_l in H. apply hex_app_inj in H as [H _].
  now apply hex16_inj.
Qed.

Lemma tag_line_inj (name : string) (a b : Z) :
  u32_range a -> u32_range b -> tag_line name a = tag_line name b -> a = b.
Proof.
  intros Ha Hb H. unfold tag_line in H.
  do 2 apply append_inj_l in H. apply hex_app_inj in H as [H _].
  now apply hex8_inj.
Qed.

Lemma cons_inj {A} (a b : A) (l l' : list A) :
  a :: l = b :: l' -> a = b /\ l = l'.
Proof. intros H. now injection H. Qed.

Ltac split_lines H :=
  repeat (let L := fresh "Hline" in apply cons_inj in H; destruct H as [L H]).

Ltac read_lines :=
  repeat match goal with
  | H : line32 _ _ = line32 _ _ |- _ =>
      apply line32_inj in H; [|assumption|assumption]
  | H : (line32 _ _ ++ nl)%string = (line32 _ _ ++ nl)%string |- _ =>
      apply line32_nl_inj in H; [|assumption|assumption]
  | H : line64 _ _ = line64 _ _ |- _ =>
      apply line64_inj in H; [|assumption|assumption]
  | H : tag_line ?n _ = tag_line ?n _ |- _ =>
      apply tag_line_inj in H; [|assumption|assumption]
  end.

Lemma print_header_inj (o1 o2 : mach_object_file_t) :
  header_ok o1 -> header_ok o2 -> print_header o1 = print_header o2 ->
  set_commands o1 [] = set_commands o2 [].
Proof.
  intros (? & ? & ? & ? & ? & ? & ? & ?) (? & ? & ? & ? & ? & ? & ? & ?) Hrep.
  unfold print_header in Hrep. apply cons_inj in Hrep as [Hrep _].
  repeat match type of Hrep with
  | (hex 8 _ ++ _ = hex 8 _ ++ _)%string =>
      let E := fresh "E" in
      apply hex_app_inj in Hrep; destruct Hrep as [E Hrep];
      apply hex8_inj in E; [|assumption|assumption]
  | (?s ++ _ = ?s ++ _)%string => apply append_inj_l in Hrep
  end.
  unfold set_commands. congruence.
Qed.

Lemma print_command_tagged (c : load_command_t) :
  tagged c ->
  print_command c =
  match body c with
  | cmd_seg_64 s => print_segment c s
  | cmd_build_version b => print_build_version c b
  | cmd_symtab s => print_symtab c s
  | cmd_dysymtab d => print_dysymtab c d
  end.
Proof.
  destruct tags_ok as (_ & _ & ? & ? & ? & ? & ?).
  unfold tagged, print_command.
  destruct (body c); intros ->; tag_tests; reflexivity.
Qed.

Lemma dysymtab_ext (d1 d2 : dysymtab_command_t) :
  ilocalsym d1 = ilocalsym d2 -> nlocalsym d1 = nlocalsym d2 ->
  iextdefsym d1 = iextdefsym d2 -> nextdefsym d1 = nextdefsym d2 ->
  iundefsym d1 = iundefsym d2 -> nundefsym d1 = nundefsym d2 ->
  tocoff d1 = tocoff d2 -> ntoc d1 = ntoc d2 ->
  modtaboff d1 = modtaboff d2 -> nmodtab d1 = nmodtab d2 ->
  extrefsymoff d1 = extrefsymoff d2 -> nextrefsyms d1 = nextrefsyms d2 ->
  indirectsymoff d1 = indirectsymoff d2 ->
  nindirectsyms d1 = nindirectsyms d2 ->
  extreloff d1 = extreloff d2 -> nextrel d1 = nextrel d2 ->
  locreloff d1 = locreloff d2 -> nlocrel d1 = nlocrel d2 -> d1 = d2.
Proof. destruct d1, d2; simpl; intros; subst; reflexivity. Qed.

Lemma build_version_ext (b1 b2 : build_version_command_t) :
  platform b1 = platform b2 -> minos b1 = minos b2 -> sdk b1 = sdk b2 ->
  ntools b1 = ntools b2 -> b1 = b2.
Proof. destruct b1, b2; simpl; intros; subst; reflexivity. Qed.

Lemma print_command_first (c : load_command_t) :
  tagged c -> exists line rest, print_command c = line :: rest.
Proof.
  intros Ht. rewrite (print_command_tagged c Ht).
  destruct (body c); eexists _, _; reflexivity.
Qed.

Ltac other_name H :=
  exfalso; apply cons_inj in H; destruct H as [H _];
  apply (f_equal (String.get 3)) in H; discriminate H.

Lemma print_commands_inj (l1 l2 : list load_command_t) :
  Forall decoded l1 -> Forall decoded l2 ->
  flat_map print_command l1 = flat_map print_command l2 ->
  Forall2 shown_alike l1 l2.
Proof.
  destruct tags_ok as (_ & _ & ? & ? & ? & ? & ?).
  revert l2. induction l1 as [|c1 l1 IH]; intros [|c2 l2] D1 D2 Hrep.
  - constructor.
  - exfalso. inversion D2 as [|? ? (_ & Ht & _) _]; subst.
    destruct (print_command_first c2 Ht) as (line & rest & E).
    cbn [flat_map] in Hrep. rewrite E in Hrep. discriminate Hrep.
  - exfalso. inversion D1 as [|? ? (_ & Ht & _) _]; subst.
    destruct (print_command_first c1 Ht) as (line & rest & E).
    cbn [flat_map] in Hrep. rewrite E in Hrep. discriminate Hrep.
  - inversion D1 as [|? ? ((Hc1 & Hz1 & Hu1) & Ht1 & _) D1']; subst.
    inversion D2 as [|? ? ((Hc2 & Hz2 & Hu2) & Ht2 & _) D2']; subst.
    cbn [flat_map] in Hrep.
    rewrite (print_command_tagged c1 Ht1), (print_command_tagged c2 Ht2)
      in Hrep.
    cut (shown_alike c1 c2 /\
         flat_map print_command l1 = flat_map print_command l2).
    { intros [Hs Hr]. constructor; [exact Hs|now apply IH]. }
    unfold tagged in Ht1, Ht2. unfold shown_alike.
    destruct (body c1) as [s1|b1|t1|d1], (body c2) as [s2|b2|t2|d2];
      unfold print_segment, print_build_version, print_symtab,
        print_dysymtab in Hrep;
      cbn [app] in Hrep; cbn [union_ok] in Hu1, Hu2.
    + destruct Hu1 as (? & ? & ? & ? & ? & ? & ? & ? & ? & ?).
      destruct Hu2 as (? & ? & ? & ? & ? & ? & ? & ? & ? & ?).
      split_lines Hrep. read_lines.
      split; [|exact Hrep]. split; [assumption|].
      unfold segment_shown.
      repeat match goal with
      | Hs : (?s ++ _ = ?s ++ _)%string |- _ => apply append_inj_l in Hs
      end.
      match goal with
      | Hs : (c_string _ ++ _ = c_string _ ++ _)%string |- _ =>
          apply append_inj_r in Hs
      end.
      repeat (split; [assumption|]). assumption.
    + other_name Hrep.
    + exfalso. apply cons_inj in Hrep as [Hrep _].
      apply tag_line_inj in Hrep; [|assumption|assumption].
      unfold LC_SYMTAB in *. congruence.
    + other_name Hrep.
    + other_name Hrep.
    + destruct Hu1 as (? & ? & ? & ?). destruct Hu2 as (? & ? & ? & ?).
      split_lines Hrep. read_lines.
      split; [|exact Hrep]. split; [assumption|].
      now apply build_version_ext.
    + other_name Hrep.
    + other_name Hrep.
    + exfalso. apply cons_inj in Hrep as [Hrep _].
      apply tag_line_inj in Hrep; [|assumption|assumption].
      unfold LC_SYMTAB in *. congruence.
    + other_name Hrep.
    + destruct Hu1 as ((? & ? & ? & ?) & _).
      destruct Hu2 as ((? & ? & ? & ?) & _).
      split_lines Hrep. read_lines.
      split; [|exact Hrep]. split; [assumption|].
      unfold symtab_shown. tauto.
    + other_name Hrep.
    + other_name Hrep.
    + other_name Hrep.
    + other_name Hrep.
    + destruct Hu1
        as (? & ? & ? & ? & ? & ? & ? & ? & ? & ? & ? & ? & ? & ? & ? & ? & ? & ?).
      destruct Hu2
        as (? & ? & ? & ? & ? & ? & ? & ? & ? & ? & ? & ? & ? & ? & ? & ? & ? & ?).
      split_lines Hrep. read_lines.
      split; [|exact Hrep]. split; [assumption|].
      now apply dysymtab_ext.
Qed.

Lemma report_shows_decoded (o1 o2 : mach_object_file_t) :
  decoded_object o1 -> decoded_object o2 ->
  pretty_print o1 = pretty_print o2 ->
  set_commands o1 [] = set_commands o2 [] /\
  Forall2 shown_alike (commands o1) (commands o2).
Proof.
  intros (Hh1 & Hn1 & Hd1) (Hh2 & Hn2 & Hd2) Hrep.
  unfold pretty_print in Hrep.
  rewrite !firstn_all2 in Hrep by lia.
  assert (Hhead : print_header o1 = print_header o2 /\
                  flat_map print_command (commands o1) =
                  flat_map print_command (commands o2)).
  { unfold print_header in Hrep |- *. cbn [app] in Hrep.
    apply cons_inj in Hrep as [E1 Hrep]. apply cons_inj in Hrep as [_ Hrep].
    split; [f_equal; exact E1|exact Hrep]. }
  destruct Hhead as [Hhead Hcmds]. split.
  - now apply print_header_inj.
  - now apply print_commands_inj.
Qed.

(** C9, as the code has it.  The report shows the eight words of the
    header and, of each load command, the tag and the fixed members of
    the body but [vmsize]: two objects that [parse_file] returned and
    that have the same report have the same header and, command by
    command, the same tag, the same text at [segname] and the same
    [vmaddr], [fileoff], [filesize], [maxprot], [initprot], [nsects]
    and [flags] of a segment, the same four members of a build version
    and of a symbol table command, and the same eighteen members of a
    dynamic symbol table command. *)
Theorem report_shows (d1 d2 : list byte) (o1 o2 : mach_object_file_t)
  (g1 g2 : FILE) :
  parse_file d1 = Done o1 g1 -> parse_file d2 = Done o2 g2 ->
  pretty_print o1 = pretty_print o2 ->
  set_commands o1 [] = set_commands o2 [] /\
  Forall2 shown_alike (commands o1) (commands o2).
Proof.
  intros E1 E2. apply report_shows_decoded.
  - exact (parse_file_decoded d1 o1 g1 E1).
  - exact (parse_file_decoded d2 o2 g2 E2).
Qed.

(** ** From the decoded object back to the file *)

Lemma byte_of_Z_to_Z (b : byte) (r : Z) :
  byte_of_Z (byte_to_Z b + 256 * r) = b.
Proof.
  pose proof (byte_to_Z_range b) as Hb. unfold byte_of_Z.
  replace ((byte_to_Z b + 256 * r) mod 256) with (byte_to_Z b).
  - unfold byte_to_Z. rewrite N2Z.id. now rewrite Byte.of_to_N.
  - rewrite (Z.mul_comm 256 r), Z.mod_add by lia.
    symmetry. apply Z.mod_small. exact Hb.
Qed.

Lemma Z_to_le_to_Z (bs : list byte) : Z_to_le (length bs) (le_to_Z bs) = bs.
Proof.
  induction bs as [|b bs IH]; [reflexivity|].
  cbn [length le_to_Z Z_to_le]. rewrite byte_of_Z_to_Z. f_equal.
  pose proof (byte_to_Z_range b) as Hb.
  replace ((byte_to_Z b + 256 * le_to_Z bs) / 256) with (le_to_Z bs);
    [exact IH|].
  rewrite (Z.mul_comm 256), Z.div_add by lia.
  rewrite (Z.div_small (byte_to_Z b)) by exact Hb. lia.
Qed.

Lemma app_same_length {A} (a b c d : list A) :
  length a = length c -> a ++ b = c ++ d -> a = c /\ b = d.
Proof.
  revert c. induction a as [|x a IH]; intros [|y c] Hlen E;
    try discriminate; [now split|].
  injection E as -> E. injection Hlen as Hlen.
  destruct (IH c Hlen E) as [-> ->]. now split.
Qed.

Lemma firstn_plus {A} (a n : nat) (l : list A) :
  firstn (a + n) l = firstn a l ++ firstn n (skipn a l).
Proof.
  revert l. induction a as [|a IH]; intros [|x l]; simpl;
    rewrite ?firstn_nil; try reflexivity.
  now rewrite IH.
Qed.

Lemma track_start (f : FILE) : track f [] f.
Proof. split; [reflexivity|]. intros _. simpl. split; [lia|reflexivity]. Qed.

Lemma fread_local_track (f0 : FILE) (bs : list byte) (n : nat) E :
  hoare (track f0 bs) (fread_local n)
    (fun v f => length v = n /\ track f0 (bs ++ v) f) E.
Proof.
  intros f [Hc Hf]. unfold fread_local, fread, bind, ret. cbv zeta.
  set (got := firstn n (skipn (pos f) (contents f))).
  assert (Hgot : (length got <= n)%nat).
  { unfold got. rewrite length_firstn. lia. }
  assert (Hv : length (store (uninit_bytes n) got) = n).
  { rewrite length_store; rewrite length_uninit_bytes; [reflexivity|exact Hgot]. }
  split; [exact Hv|]. split; [exact Hc|]. cbn [pos contents].
  rewrite length_app, Hv. intros Hlen.
  destruct Hf as [Hp Hb]; [lia|].
  assert (Hfull : length got = n).
  { unfold got. rewrite length_firstn, length_skipn, Hc. lia. }
  rewrite store_full by (now rewrite length_uninit_bytes).
  split; [lia|].
  rewrite firstn_plus, Hb. f_equal.
  rewrite skipn_skipn. unfold got. rewrite Hp, Hc.
  now rewrite (Nat.add_comm (length bs)).
Qed.

Lemma fread_static_track (f0 : FILE) (bs : list byte) (n : nat) E :
  hoare (track f0 bs) (fread_static n)
    (fun v f => length v = n /\ track f0 (bs ++ v) f) E.
Proof.
  intros f [Hc Hf]. unfold fread_static, fread, bind, ret. cbv zeta.
  set (got := firstn n (skipn (pos f) (contents f))).
  assert (Hgot : (length got <= n)%nat).
  { unfold got. rewrite length_firstn. lia. }
  assert (Hv : length (store (repeat x00 n) got) = n).
  { rewrite length_store; rewrite repeat_length; [reflexivity|exact Hgot]. }
  split; [exact Hv|]. split; [exact Hc|]. cbn [pos contents].
  rewrite length_app, Hv. intros Hlen.
  destruct Hf as [Hp Hb]; [lia|].
  assert (Hfull : length got = n).
  { unfold got. rewrite length_firstn, length_skipn, Hc. lia. }
  rewrite store_full by (now rewrite repeat_length).
  split; [lia|].
  rewrite firstn_plus, Hb. f_equal.
  rewrite skipn_skipn. unfold got. rewrite Hp, Hc.
  now rewrite (Nat.add_comm (length bs)).
Qed.

Lemma name_track (f0 : FILE) (bs : list byte) (n : nat) E :
  hoare (track f0 bs) (fread_local n) (fun v f => track f0 (bs ++ v) f) E.
Proof.
  eapply hoare_weaken; [apply fread_local_track| |]; [|intros t f H; exact H].
  intros v f [_ H]. exact H.
Qed.

Lemma le_bytes (n : nat) (v : list byte) :
  length v = n -> Z_to_le n (le_to_Z v) = v.
Proof. intros <-. apply Z_to_le_to_Z. Qed.

Lemma read_u8_track (f0 : FILE) (bs : list byte) E :
  hoare (track f0 bs) read_u8 (fun z f => track f0 (bs ++ Z_to_le 1 z) f) E.
Proof.
  unfold read_u8. eapply hoare_bind; [apply fread_local_track|].
  intros v. apply hoare_pure. intros Hlen. apply hoare_ret. intros f Hf.
  now rewrite (le_bytes 1 v Hlen).
Qed.

Lemma read_u16_track (f0 : FILE) (bs : list byte) E :
  hoare (track f0 bs) read_u16 (fun z f => track f0 (bs ++ Z_to_le 2 z) f) E.
Proof.
  unfold read_u16. eapply hoare_bind; [apply fread_local_track|].
  intros v. apply hoare_pure. intros Hlen. apply hoare_ret. intros f Hf.
  now rewrite (le_bytes 2 v Hlen).
Qed.

Lemma read_u32_track (f0 : FILE) (bs : list byte) E :
  hoare (track f0 bs) read_u32 (fun z f => track f0 (bs ++ Z_to_le 4 z) f) E.
Proof.
  unfold read_u32. eapply hoare_bind; [apply fread_local_track|].
  intros v. apply hoare_pure. intros Hlen. apply hoare_ret. intros f Hf.
  now rewrite (le_bytes 4 v Hlen).
Qed.

Lemma read_u64_track (f0 : FILE) (bs : list byte) E :
  hoare (track f0 bs) read_u64 (fun z f => track f0 (bs ++ Z_to_le 8 z) f) E.
Proof.
  unfold read_u64. eapply hoare_bind; [apply fread_local_track|].
  intros v. apply hoare_pure. intros Hlen. apply hoare_ret. intros f Hf.
  now rewrite (le_bytes 8 v Hlen).
Qed.

Lemma read_u32_static_track (f0 : FILE) (bs : list byte) E :
  hoare (track f0 bs) read_u32_static
    (fun z f => track f0 (bs ++ Z_to_le 4 z) f) E.
Proof.
  unfold read_u32_static. eapply hoare_bind; [apply fread_static_track|].
  intros v. apply hoare_pure. intros Hlen. apply hoare_ret. intros f Hf.
  now rewrite (le_bytes 4 v Hlen).
Qed.

Ltac track_fields :=
  repeat (eapply hoare_bind;
          [ match goal with
            | |- hoare _ read_u8 _ _ => apply read_u8_track
            | |- hoare _ read_u16 _ _ => apply read_u16_track
            | |- hoare _ read_u32 _ _ => apply read_u32_track
            | |- hoare _ read_u64 _ _ => apply read_u64_track
            | |- hoare _ read_u32_static _ _ => apply read_u32_static_track
            | |- hoare _ (fread_local _) _ _ => apply name_track
            end
          | intros ? ]).

Ltac track_done :=
  apply hoare_ret;
  let f := fresh "f" in let H := fresh "H" in
  intros f H; repeat rewrite <- app_assoc in H; exact H.

Lemma read_section_track (f0 : FILE) (bs : list byte) E :
  hoare (track f0 bs) read_section
    (fun s f => track f0 (bs ++ encode_section s) f) E.
Proof. unfold read_section. track_fields. track_done. Qed.

Lemma read_sections_track n : forall (f0 : FILE) (bs : list byte) E,
  hoare (track f0 bs) (read_sections n)
    (fun ss f => track f0 (bs ++ encode_sections ss) f) E.
Proof.
  induction n as [|n IH]; intros f0 bs E; cbn [read_sections].
  - apply hoare_ret. intros f H. cbn [encode_sections flat_map].
    now rewrite app_nil_r.
  - eapply hoare_bind; [apply read_section_track|]. intros s.
    eapply hoare_bind; [apply IH|]. intros ss. track_done.
Qed.

Lemma read_segment_track (f0 : FILE) (bs : list byte) E :
  hoare (track f0 bs) read_segment
    (fun s f => track f0 (bs ++ encode_segment s) f) E.
Proof.
  unfold read_segment. track_fields.
  eapply hoare_bind; [apply read_sections_track|]. intros ss.
  apply hoare_ret. intros f H.
  unfold encode_segment, encode_segment_fields. cbn [segname vmaddr vmsize
    fileoff filesize maxprot initprot nsects seg_flags sections].
  repeat rewrite <- app_assoc in H. repeat rewrite <- app_assoc. exact H.
Qed.

Lemma read_dysymtab_track (f0 : FILE) (bs : list byte) E :
  hoare (track f0 bs) read_dysymtab
    (fun d f => track f0 (bs ++ encode_dysymtab d) f) E.
Proof. unfold read_dysymtab. track_fields. track_done. Qed.

Lemma read_symtab_track (f0 : FILE) (bs : list byte) E :
  hoare (track f0 bs) read_symtab
    (fun s f => track f0 (bs ++ encode_symtab s) f) E.
Proof. unfold read_symtab. track_fields. track_done. Qed.

Lemma read_build_version_track (f0 : FILE) (bs : list byte) E :
  hoare (track f0 bs) read_build_version
    (fun b f => track f0 (bs ++ encode_build_version b) f) E.
Proof. unfold read_build_version. track_fields. track_done. Qed.

Lemma read_command_track (f0 : FILE) (bs : list byte) :
  hoare (track f0 bs) read_command
    (fun c f => track f0 (bs ++ encode_command c) f) (fun _ _ => True).
Proof.
  unfold read_command.
  eapply hoare_bind; [apply read_u32_track|]. intros tag.
  eapply hoare_bind; [apply read_u32_track|]. intros sz.
  destruct (tag =? LC_SEGMENT_64);
    [|destruct (tag =? LC_DYSYMTAB);
      [|destruct (tag =? LC_SYMTAB);
        [|destruct (tag =? LC_BUILD_VERSION)]]].
  - eapply hoare_bind; [apply read_segment_track|]. intros s. track_done.
  - eapply hoare_bind; [apply read_dysymtab_track|]. intros d. track_done.
  - eapply hoare_bind; [apply read_symtab_track|]. intros s. track_done.
  - eapply hoare_bind; [apply read_build_version_track|]. intros b.
    track_done.
  - apply hoare_exit. intros f _. exact I.
Qed.

Lemma read_commands_track n : forall (f0 : FILE) (bs : list byte),
  hoare (track f0 bs) (read_commands n)
    (fun cs f => track f0 (bs ++ encode_commands cs) f) (fun _ _ => True).
Proof.
  induction n as [|n IH]; intros f0 bs; cbn [read_commands].
  - apply hoare_ret. intros f H. cbn [encode_commands flat_map].
    now rewrite app_nil_r.
  - eapply hoare_bind; [apply read_command_track|]. intros c.
    eapply hoare_bind; [apply IH|]. intros cs. track_done.
Qed.

Lemma read_header_track (f0 : FILE) (bs : list byte) E :
  hoare (track f0 bs) read_header
    (fun o f => track f0 (bs ++ encode_header o) f) E.
Proof. unfold read_header. track_fields. track_done. Qed.


(** X2.  From the decoded object back to the file: when [parse_file]
    returns and the file is as long as the header and the decoded
    commands take, the file begins with the bytes of that header and
    of those commands (the symbol entries left aside). *)
Theorem decoded_bytes_are_the_file (data : list byte)
  (o : mach_object_file_t) (g : FILE) :
  parse_file data = Done o g ->
  (32 + length (encode_commands (map forget_symbols (commands o))) <=
   length data)%nat ->
  firstn (32 + length (encode_commands (map forget_symbols (commands o))))
    data =
  encode_header o ++ encode_commands (map forget_symbols (commands o)).
Proof.
  intros E Hlen.
  destruct (parse_file_run data o g E)
    as (h & f1 & cs & f2 & Eh & _ & _ & Ec & Hcs & _ & _ & Er & Ho).
  destruct (resolve_symtab_decoded cs _ f2 g Hcs Er) as [_ Hmap].
  rewrite Hmap in *.
  pose proof (read_header_track (fopen data) [] (fun _ _ => True)
                (fopen data) (track_start _)) as T1.
  rewrite Eh in T1.
  pose proof (read_commands_track (Z.to_nat (number_of_load_commands h))
                (fopen data) _ f1 T1) as T2.
  rewrite Ec in T2. destruct T2 as [_ T2]. cbn [fopen pos contents] in T2.
  rewrite app_nil_l, length_app, length_encode_header in T2.
  destruct (T2 Hlen) as [_ T3]. cbn [skipn] in T3.
  rewrite T3, Ho. reflexivity.
Qed.

(** ** How far the cursor goes *)

Lemma cursor_start (f : FILE) : cursor f 0 f.
Proof. split; [reflexivity|]. intros H. lia. Qed.

Lemma cursor_eq (f0 f : FILE) (n m : nat) :
  n = m -> cursor f0 n f -> cursor f0 m f.
Proof. now intros <-. Qed.

Lemma fread_local_cursor (f0 : FILE) (r n : nat) E :
  hoare (cursor f0 r) (fread_local n) (fun _ f => cursor f0 (r + n) f) E.
Proof.
  intros f [Hc Hp]. unfold fread_local, fread, bind, ret. cbv zeta.
  split; [exact Hc|]. cbn [pos contents]. intros H0.
  rewrite length_firstn, length_skipn, Hc, (Hp H0). lia.
Qed.

Lemma read_u32_cursor (f0 : FILE) (r : nat) E :
  hoare (cursor f0 r) read_u32 (fun _ f => cursor f0 (r + 4) f) E.
Proof.
  unfold read_u32. eapply hoare_bind; [apply fread_local_cursor|].
  intros v. apply hoare_ret. intros f H. exact H.
Qed.

Lemma read_u64_cursor (f0 : FILE) (r : nat) E :
  hoare (cursor f0 r) read_u64 (fun _ f => cursor f0 (r + 8) f) E.
Proof.
  unfold read_u64. eapply hoare_bind; [apply fread_local_cursor|].
  intros v. apply hoare_ret. intros f H. exact H.
Qed.

Ltac cursor_fields :=
  repeat (eapply hoare_bind;
          [ match goal with
            | |- hoare _ read_u32 _ _ => apply read_u32_cursor
            | |- hoare _ read_u64 _ _ => apply read_u64_cursor
            | |- hoare _ (fread_local _) _ _ => apply fread_local_cursor
            end
          | intros ? ]).

Ltac cursor_done :=
  apply hoare_ret;
  let f := fresh "f" in let H := fresh "H" in
  intros f H; eapply cursor_eq; [|exact H]; cbn; lia.

Lemma read_section_cursor (f0 : FILE) (r : nat) E :
  hoare (cursor f0 r) read_section (fun _ f => cursor f0 (r + 80) f) E.
Proof. unfold read_section. cursor_fields. cursor_done. Qed.

Lemma read_sections_cursor n : forall (f0 : FILE) (r : nat) E,
  hoare (cursor f0 r) (read_sections n)
    (fun _ f => cursor f0 (r + 80 * n) f) E.
Proof.
  induction n as [|n IH]; intros f0 r E; cbn [read_sections].
  - apply hoare_ret. intros f H. eapply cursor_eq; [|exact H]. lia.
  - eapply hoare_bind; [apply read_section_cursor|]. intros s.
    eapply hoare_bind; [apply IH|]. intros ss.
    apply hoare_ret. intros f H. eapply cursor_eq; [|exact H]. lia.
Qed.

Lemma read_segment_cursor (f0 : FILE) (r : nat) E :
  hoare (cursor f0 r) read_segment
    (fun s f => cursor f0 (r + (64 + 80 * Z.to_nat (nsects s))) f) E.
Proof.
  unfold read_segment. cursor_fields.
  eapply hoare_bind; [apply read_sections_cursor|]. intros ss.
  apply hoare_ret. intros f H. cbn [nsects].
  eapply cursor_eq; [|exact H]. lia.
Qed.

Lemma read_dysymtab_cursor (f0 : FILE) (r : nat) E :
  hoare (cursor f0 r) read_dysymtab (fun _ f => cursor f0 (r + 72) f) E.
Proof. unfold read_dysymtab. cursor_fields. cursor_done. Qed.

Lemma read_symtab_cursor (f0 : FILE) (r : nat) E :
  hoare (cursor f0 r) read_symtab (fun _ f => cursor f0 (r + 16) f) E.
Proof. unfold read_symtab. cursor_fields. cursor_done. Qed.

Lemma read_build_version_cursor (f0 : FILE) (r : nat) E :
  hoare (cursor f0 r) read_build_version
    (fun _ f => cursor f0 (r + 16) f) E.
Proof. unfold read_build_version. cursor_fields. cursor_done. Qed.

Lemma read_command_cursor (f0 : FILE) (r : nat) :
  hoare (cursor f0 r) read_command
    (fun c f => cursor f0 (r + wire_size c) f) (fun _ _ => True).
Proof.
  unfold read_command.
  eapply hoare_bind; [apply read_u32_cursor|]. intros tag.
  eapply hoare_bind; [apply read_u32_cursor|]. intros sz.
  destruct (tag =? LC_SEGMENT_64);
    [|destruct (tag =? LC_DYSYMTAB);
      [|destruct (tag =? LC_SYMTAB);
        [|destruct (tag =? LC_BUILD_VERSION)]]].
  - eapply hoare_bind; [apply read_segment_cursor|]. intros s.
    apply hoare_ret. intros f H. eapply cursor_eq; [|exact H].
    unfold wire_size. cbn [body]. lia.
  - eapply hoare_bind; [apply read_dysymtab_cursor|]. intros d.
    apply hoare_ret. intros f H. eapply cursor_eq; [|exact H].
    unfold wire_size. cbn [body]. lia.
  - eapply hoare_bind; [apply read_symtab_cursor|]. intros s.
    apply hoare_ret. intros f H. eapply cursor_eq; [|exact H].
    unfold wire_size. cbn [body]. lia.
  - eapply hoare_bind; [apply read_build_version_cursor|]. intros b.
    apply hoare_ret. intros f H. eapply cursor_eq; [|exact H].
    unfold wire_size. cbn [body]. lia.
  - apply hoare_exit. intros f _. exact I.
Qed.

Lemma read_commands_cursor n : forall (f0 : FILE) (r : nat),
  hoare (cursor f0 r) (read_commands n)
    (fun cs f => cursor f0 (r + wire_sizes cs) f) (fun _ _ => True).
Proof.
  induction n as [|n IH]; intros f0 r; cbn [read_commands].
  - apply hoare_ret. intros f H. eapply cursor_eq; [|exact H].
    unfold wire_sizes. cbn. lia.
  - eapply hoare_bind; [apply read_command_cursor|]. intros c.
    eapply hoare_bind; [apply IH|]. intros cs.
    apply hoare_ret. intros f H. eapply cursor_eq; [|exact H].
    unfold wire_sizes, list_sum. cbn [map fold_right]. lia.
Qed.

(** X7.  How far the command loop moves the cursor, on any stream that
    stands inside its file: by the sizes on the wire of the commands it
    decoded, which their tags and section counts fix and their declared
    sizes do not, or to the end of the file when that comes first. *)
Theorem cursor_after_commands (n : nat) (f f' : FILE)
  (cs : list load_command_t) :
  (pos f <= length (contents f))%nat ->
  read_commands n f = Done cs f' ->
  pos f' = Nat.min (pos f + wire_sizes cs) (length (contents f)).
Proof.
  intros Hp E.
  pose proof (read_commands_cursor n f 0 f (cursor_start f)) as H.
  rewrite E in H. destruct H as [_ H]. exact (H Hp).
Qed.

(** ** The symbol entries *)

Lemma length_encode_entry (e : nlist_64_t) :
  length (encode_entry e) = 16%nat.
Proof. unfold encode_entry. now rewrite !length_app, !length_Z_to_le. Qed.

Lemma length_encode_entries (es : list nlist_64_t) :
  length (encode_entries es) = (16 * length es)%nat.
Proof.
  unfold encode_entries. induction es as [|e es IH]; [reflexivity|].
  cbn [flat_map length]. rewrite length_app, length_encode_entry, IH. lia.
Qed.

Lemma reads_entries (es : list nlist_64_t) :
  Forall entry_ok es ->
  reads (read_entries (length es)) (encode_entries es) es.
Proof.
  unfold encode_entries.
  induction 1 as [|e es He _ IH]; cbn [read_entries length flat_map].
  - now apply reads_ret.
  - eapply reads_bind; [now apply reads_entry|].
    apply reads_nil_r. eapply reads_bind; [exact IH|].
    now apply reads_ret.
Qed.

Lemma commands_keep_contents (data : list byte) (h : mach_object_file_t)
  (f1 f2 : FILE) (n : nat) (cs : list load_command_t) :
  read_header (fopen data) = Done h f1 ->
  read_commands n f1 = Done cs f2 -> contents f2 = data.
Proof.
  intros Eh Ec.
  pose proof (preserves_header (fopen data)) as H1. rewrite Eh in H1.
  pose proof (preserves_commands n f1) as H2. rewrite Ec in H2.
  now rewrite H2, H1.
Qed.

(** X1.  The symbol entries are the bytes at [symoff]: when
    [parse_file] returns and the file holds, at the [symoff] of the
    first symbol table command, the sixteen bytes of each of [nsyms]
    entries, these entries are the symbol table of that command, and the
    stream is left just after them. *)
Theorem symbol_entries_decoded (data : list byte) (o : mach_object_file_t)
  (g : FILE) (pre post : list load_command_t) (c1 : load_command_t)
  (st : symtab_command_t) (es : list nlist_64_t) (rest : list byte) :
  parse_file data = Done o g ->
  commands o = pre ++ c1 :: post ->
  (forall c, In c pre -> cmd c <> LC_SYMTAB) ->
  cmd c1 = LC_SYMTAB -> body c1 = cmd_symtab st ->
  Forall entry_ok es -> Z.of_nat (length es) = nsyms st ->
  skipn (Z.to_nat (symoff st)) data = encode_entries es ++ rest ->
  symbol_table st = Some es /\
  pos g = (Z.to_nat (symoff st) + 16 * length es)%nat.
Proof.
  intros E Hsplit Hpre Htag Hbody Hes Hn Hbytes.
  destruct (parse_file_run data o g E)
    as (h & f1 & cs & f2 & Eh & _ & _ & Ec & Hcs & _ & _ & Er & _).
  pose proof (commands_keep_contents _ _ _ _ _ _ Eh Ec) as Hdata.
  destruct (resolve_symtab_cases cs f2 Hcs)
    as [[Hnone E2]
       |(pre' & c & st' & post' & es' & f' & Hcs' & Hpre' & Hc & Hb & E2 & _)].
  - rewrite E2 in Er. injection Er as Ho _.
    exfalso. apply (Hnone c1); [|exact Htag].
    rewrite Ho, Hsplit. apply in_or_app. right. now left.
  - rewrite E2 in Er. injection Er as Ho Hg.
    rewrite Hsplit in Ho.
    destruct (first_symtab_unique _ _ _ _ _ _ Ho Hpre' Hc Hpre Htag)
      as (Epre & Ec1 & Epost).
    rewrite <- Ec1 in Hbody. cbn [attach body] in Hbody.
    injection Hbody as Hst.
    assert (Hoff : symoff st = symoff st') by now rewrite <- Hst.
    assert (Hns : nsyms st = nsyms st') by now rewrite <- Hst.
    rewrite Hcs', (resolve_symtab_first pre' post' c st' f2 Hpre' Hc Hb),
      resolve_command_run in E2.
    rewrite <- Hns, <- Hn, Nat2Z.id, <- Hoff in E2.
    destruct (reads_entries es Hes
                {| contents := contents f2; pos := Z.to_nat (symoff st);
                   log := io_seek (Z.to_nat (symoff st)) ::
                          io_read (Z.to_nat (strsize st')) ::
                          io_seek (Z.to_nat (stroff st')) :: log f2 |}
                rest) as (f3 & E3 & _ & Hp & _).
    { cbn [pos contents]. now rewrite Hdata. }
    unfold bind in E2. rewrite E3 in E2. unfold ret in E2.
    injection E2 as Hatt Hf.
    apply app_inv_head in Hatt. injection Hatt as Hes'.
    split; [now rewrite <- Hst, <- Hes'|].
    rewrite <- Hg, <- Hf, Hp, length_encode_entries. reflexivity.
Qed.

(** ** The header, as it stands *)

(** X3.  The header is taken as it stands: whatever [parse_file]
    returns, its eight header words are the first eight words of the
    file, the bytes that the file lacks read as zero; no word is checked,
    the magic number no more than the others. *)
Theorem header_taken_as_it_stands (data : list byte)
  (o : mach_object_file_t) (g : FILE) :
  parse_file data = Done o g -> set_commands o [] = header_of data.
Proof.
  rewrite parse_file_unfold.
  destruct (read_commands _ _) as [cs f2|t f2]; [|discriminate].
  destruct (resolve_symtab cs f2) as [cs' g'|t g']; [|discriminate].
  intros E. injection E as <- _. reflexivity.
Qed.

(** ** Leaving through [exit] *)

Lemma hoare_conj {A} P P' (m : io A) (Q Q' : A -> FILE -> Prop)
  (E E' : Z -> FILE -> Prop) :
  hoare P m Q E -> hoare P' m Q' E' ->
  hoare (fun f => P f /\ P' f) m (fun a f => Q a f /\ Q' a f)
    (fun t f => E t f /\ E' t f).
Proof.
  intros H H' f [Hf Hf']. specialize (H f Hf). specialize (H' f Hf').
  destruct (m f); now split.
Qed.

Lemma read_u32_range_track (f0 : FILE) (bs : list byte) E :
  hoare (track f0 bs) read_u32
    (fun z f => u32_range z /\ track f0 (bs ++ Z_to_le 4 z) f) E.
Proof.
  unfold read_u32. eapply hoare_bind; [apply fread_local_track|].
  intros v. apply hoare_pure. intros Hlen. apply hoare_ret. intros f Hf.
  split; [now apply (le_to_Z_range 4)|].
  now rewrite (le_bytes 4 v Hlen).
Qed.

Lemma read_command_exit_track (f0 : FILE) (bs : list byte) :
  hoare (track f0 bs) read_command
    (fun c f => track f0 (bs ++ encode_command c) f)
    (fun t f => u32_range t /\
                exists sz, track f0 (bs ++ Z_to_le 4 t ++ Z_to_le 4 sz) f).
Proof.
  unfold read_command.
  eapply hoare_bind; [apply read_u32_range_track|]. intros tag.
  apply hoare_pure. intros Hr.
  eapply hoare_bind; [apply read_u32_track|]. intros sz.
  destruct (tag =? LC_SEGMENT_64);
    [|destruct (tag =? LC_DYSYMTAB);
      [|destruct (tag =? LC_SYMTAB);
        [|destruct (tag =? LC_BUILD_VERSION)]]].
  - eapply hoare_bind; [apply read_segment_track|]. intros s. track_done.
  - eapply hoare_bind; [apply read_dysymtab_track|]. intros d. track_done.
  - eapply hoare_bind; [apply read_symtab_track|]. intros s. track_done.
  - eapply hoare_bind; [apply read_build_version_track|]. intros b.
    track_done.
  - apply hoare_exit. intros f H. split; [exact Hr|]. exists sz.
    now rewrite <- app_assoc in H.
Qed.

Lemma read_commands_exit n : forall (f0 : FILE) (bs : list byte) L,
  hoare (fun f => logged L f /\ track f0 bs f) (read_commands n)
    (fun _ _ => True)
    (fun t f =>
       ~ recognized t /\ u32_range t /\
       exists cs sz,
         Forall well_formed cs /\ (length cs < n)%nat /\
         logged (io_read 4 :: io_read 4 :: commands_events cs ++ L) f /\
         track f0 (bs ++ encode_commands cs ++ Z_to_le 4 t ++ Z_to_le 4 sz)
           f).
Proof.
  induction n as [|n IH]; intros f0 bs L f [Hl Ht];
    cbn [read_commands]; [exact I|].
  unfold bind at 1.
  pose proof (hoare_conj _ _ _ _ _ _ _ (read_command_spec L)
                (read_command_exit_track f0 bs) f (conj Hl Ht)) as H.
  destruct (read_command f) as [c f1|t f1].
  - destruct H as [[Hc Hl1] Ht1].
    specialize (IH f0 _ _ f1 (conj Hl1 Ht1)).
    unfold bind at 1.
    destruct (read_commands n f1) as [cs f2|t f2]; [exact I|].
    destruct IH as (Hn & Hr & cs & sz & Hcs & Hlen & Hl2 & Ht2).
    split; [exact Hn|]. split; [exact Hr|].
    exists (c :: cs), sz. split; [now constructor|].
    split; [simpl; lia|]. split.
    + unfold logged in *. rewrite Hl2. cbn [commands_events].
      now rewrite <- app_assoc.
    + cbn [encode_commands flat_map].
      repeat rewrite <- app_assoc in Ht2. repeat rewrite <- app_assoc.
      exact Ht2.
  - destruct H as [[Hn Hl1] [Hr [sz Ht1]]].
    split; [exact Hn|]. split; [exact Hr|].
    exists [], sz. split; [constructor|]. split; [simpl; lia|].
    split; [exact Hl1|exact Ht1].
Qed.

(** X4.  Leaving through [exit]: when [parse_file] leaves through
    [exit], the tag is a 32-bit value that is none of the four known
    ones; fewer commands than the header counts were decoded before it,
    and the calls on the stream are the reads of the header, of these
    commands and of the two words of the one that was refused, with no
    positioning; when the file holds these two words, it begins with the
    bytes of the header and of the decoded commands, and the tag is the
    word that follows them. *)
Theorem exit_trace (data : list byte) (tag : Z) (f : FILE) :
  parse_file data = Exit tag f ->
  ~ recognized tag /\ u32_range tag /\
  exists cs,
    Forall well_formed cs /\
    (length cs < Z.to_nat (number_of_load_commands (header_of data)))%nat /\
    log f = io_read 4 :: io_read 4 :: commands_events cs ++ header_events /\
    seeks (log f) = [] /\
    ((32 + length (encode_commands cs) + 8 <= length data)%nat ->
     firstn (32 + length (encode_commands cs)) data =
     encode_header (header_of data) ++ encode_commands cs /\
     firstn 4 (skipn (32 + length (encode_commands cs)) data) =
     Z_to_le 4 tag /\
     pos f = (32 + length (encode_commands cs) + 8)%nat).
Proof.
  intros E.
  pose proof (read_header_track (fopen data) [] (fun _ _ => True)
                (fopen data) (track_start _)) as T1.
  rewrite read_header_run, app_nil_l in T1.
  rewrite parse_file_unfold in E.
  set (f1 := {| contents := data; pos := Nat.min 32 (length data);
                log := header_events |}) in *.
  pose proof (read_commands_exit
                (Z.to_nat (number_of_load_commands (header_of data)))
                (fopen data) (encode_header (header_of data)) header_events
                f1 (conj eq_refl T1)) as H.
  pose proof (read_commands_spec
                (Z.to_nat (number_of_load_commands (header_of data)))
                header_events f1 eq_refl) as Hc.
  destruct (read_commands _ f1) as [cs f2|t f2].
  - destruct Hc as [[Hcs _] _].
    destruct (total_resolve_symtab cs f2 Hcs) as (cs' & f3 & E3).
    rewrite E3 in E. discriminate.
  - injection E as -> ->.
    destruct H as (Hn & Hr & cs & sz & Hcs & Hlen & Hl & _ & Ht).
    split; [exact Hn|]. split; [exact Hr|].
    exists cs. split; [exact Hcs|]. split; [exact Hlen|].
    split; [exact Hl|]. split.
    { rewrite Hl. cbn [seeks]. rewrite seeks_app, seeks_commands_events.
      reflexivity. }
    intros Hfit. cbn [fopen pos contents] in Ht.
    rewrite !length_app, length_encode_header, !length_Z_to_le in Ht.
    destruct Ht as [Hp Hb]; [lia|]. cbn [skipn] in Hb.
    replace (32 + (length (encode_commands cs) + (4 + 4)))%nat
      with ((32 + length (encode_commands cs)) + (4 + 4))%nat in Hb by lia.
    rewrite firstn_plus in Hb.
    rewrite (firstn_plus 4 4), (app_assoc (encode_header _)) in Hb.
    apply app_same_length in Hb as [Hb1 Hb2].
    2:{ rewrite length_firstn, length_app, length_encode_header. lia. }
    apply app_same_length in Hb2 as [Hb2 _].
    2:{ rewrite length_firstn, length_skipn, length_Z_to_le. lia. }
    split; [exact Hb1|]. split; [exact Hb2|]. lia.
Qed.

(** ** What the report depends on *)

Lemma Forall2_firstn {A B} (R : A -> B -> Prop) (n : nat) :
  forall l1 l2, Forall2 R l1 l2 -> Forall2 R (firstn n l1) (firstn n l2).
Proof.
  induction n as [|n IH]; intros l1 l2 H; [constructor|].
  destruct H; cbn [firstn]; constructor; [assumption|]. now apply IH.
Qed.

Lemma print_command_shown (c1 c2 : load_command_t) :
  shown_alike c1 c2 -> print_command c1 = print_command c2.
Proof.
  unfold shown_alike, print_command. intros [Hc Hb]. rewrite <- Hc.
  destruct (body c1) as [s1|b1|s1|d1], (body c2) as [s2|b2|s2|d2];
    try contradiction.
  - destruct Hb as (Hn & H1 & H2 & H3 & H4 & H5 & H6 & H7).
    unfold print_segment. now rewrite Hc, Hn, H1, H2, H3, H4, H5, H6, H7.
  - now subst; unfold print_build_version; rewrite Hc.
  - destruct Hb as (H1 & H2 & H3 & H4).
    unfold print_symtab. now rewrite Hc, H1, H2, H3, H4.
  - now subst; unfold print_dysymtab; rewrite Hc.
Qed.

Lemma print_commands_shown (l1 l2 : list load_command_t) :
  Forall2 shown_alike l1 l2 ->
  flat_map print_command l1 = flat_map print_command l2.
Proof.
  induction 1 as [|c1 c2 l1 l2 Hc _ IH]; [reflexivity|].
  cbn [flat_map]. now rewrite (print_command_shown c1 c2 Hc), IH.
Qed.

(** X5.  The report depends on nothing but what it shows: two objects
    with the same header words whose commands have, one by one, the same
    tag and the same shown members have the same report, whatever their
    declared sizes, their [vmsize], their sections and their symbol
    entries. *)
Theorem report_depends_on_shown (o1 o2 : mach_object_file_t) :
  set_commands o1 [] = set_commands o2 [] ->
  Forall2 shown_alike (commands o1) (commands o2) ->
  pretty_print o1 = pretty_print o2.
Proof.
  intros Hh Hcs. unfold pretty_print, print_header.
  injection Hh as -> -> -> -> -> -> -> ->.
  f_equal. apply print_commands_shown. now apply Forall2_firstn.
Qed.





(** ** The program, from the command line to the report *)

Lemma shown_forget (c : load_command_t) :
  shown_alike c (forget_symbols c).
Proof.
  unfold shown_alike, forget_symbols.
  destruct (body c) as [s|b|s|d] eqn:Hb; cbn [cmd body]; rewrite ?Hb;
    split; try reflexivity; now repeat split.
Qed.

Lemma shown_forgotten (cs : list load_command_t) :
  Forall2 shown_alike cs (map forget_symbols cs).
Proof.
  induction cs as [|c cs IH]; cbn [map]; constructor;
    [apply shown_forget|exact IH].
Qed.

Lemma parse_well_formed (h : mach_object_file_t)
  (cs : list load_command_t) (tail : list byte) :
  header_ok h -> Forall well_formed cs ->
  number_of_load_commands h = Z.of_nat (length cs) ->
  exists cs' f,
    parse_file (encode_header h ++ encode_commands cs ++ tail) =
    Done (set_commands h cs') f /\
    map forget_symbols cs' = cs.
Proof.
  intros Hh Hcs Hn.
  destruct (reads_header h Hh
              (fopen (encode_header h ++ encode_commands cs ++ tail))
              (encode_commands cs ++ tail) eq_refl)
    as (f1 & E1 & _ & _ & R1).
  destruct (reads_commands cs Hcs f1 tail R1) as (f2 & E2 & _).
  destruct (total_resolve_symtab cs f2 Hcs) as (cs' & f3 & E3).
  destruct (resolve_symtab_decoded cs cs' f2 f3 Hcs E3) as [_ Hmap].
  exists cs', f3. split; [|exact Hmap].
  rewrite (parse_file_stages _ _ _ E1).
  cbn [set_commands number_of_load_commands].
  rewrite Hn, Nat2Z.id, E2, E3. reflexivity.
Qed.

(** X8.  From the command line to the report: given one argument that
    names a file made of a header that counts [k] commands, [k]
    well-formed commands and anything after them, [main] writes the
    report of that header and of these commands, and nothing else, and
    ends with success. *)
Theorem main_reports_the_file (files : string -> option (list byte))
  (argv0 path : string) (h : mach_object_file_t)
  (cs : list load_command_t) (tail : list byte) :
  header_ok h -> Forall well_formed cs ->
  number_of_load_commands h = Z.of_nat (length cs) ->
  files path = Some (encode_header h ++ encode_commands cs ++ tail) ->
  main files argv0 [path] =
  {| stdout := pretty_print (set_commands h cs); ending := Success |}.
Proof.
  intros Hh Hcs Hn Hfile. unfold main. rewrite Hfile.
  destruct (parse_well_formed h cs tail Hh Hcs Hn) as (cs' & f & E & Hmap).
  rewrite E. f_equal. unfold pretty_print, print_header.
  cbn [set_commands commands magic cpu_type cpu_subtype file_type
       number_of_load_commands size_of_load_commands flags reserved].
  f_equal. apply print_commands_shown, Forall2_firstn.
  rewrite <- Hmap. apply shown_forgotten.
Qed.

(** X9.  The one failure: [main] ends with the failure status in one
    case only, when it was given one argument that names a file that
    can be opened in which [parse_file] met a tag that is none of the
    four known ones; what it wrote is then the one line that names this
    tag.  A wrong number of arguments ends with success. *)
Theorem main_failure (files : string -> option (list byte))
  (argv0 : string) (args : list string) :
  ending (main files argv0 args) = Failure ->
  exists path data tag f,
    args = [path] /\ files path = Some data /\
    parse_file data = Exit tag f /\ ~ recognized tag /\
    stdout (main files argv0 args) = [unexpected_tag tag].
Proof.
  unfold main.
  destruct args as [|path [|more args]]; cbn [ending]; try discriminate.
  destruct (files path) as [data|] eqn:Hfile; cbn [ending];
    [|discriminate].
  destruct (parse_file data) as [o g|tag g] eqn:E; cbn [ending stdout];
    [discriminate|].
  intros _. exists path, data, tag, g.
  split; [reflexivity|]. split; [exact Hfile|]. split; [exact E|].
  split; [exact (parse_file_exit data tag g E)|reflexivity].
Qed.

(** X10.  The usage message: [main] writes the two lines of the usage
    message, and ends with success, exactly when the number of
    arguments after the program name is not one; no report and no
    diagnostic is the usage message. *)
Theorem main_usage (files : string -> option (list byte))
  (argv0 : string) (args : list string) :
  (length args <> 1%nat <-> stdout (main files argv0 args) = usage argv0) /\
  (length args <> 1%nat -> ending (main files argv0 args) = Success).
Proof.
  unfold main. destruct args as [|path [|more args]]; cbn [length].
  - split; [split; [reflexivity|intros _; lia]|reflexivity].
  - split; [|intros H; now elim H]. split; [intros H; now elim H|].
    destruct (files path) as [data|]; [|discriminate].
    destruct (parse_file data) as [o g|tag g]; cbn [stdout].
    + unfold pretty_print, print_header, usage, RED_BOLD.
      cbn [app append]. intros H. exfalso. revert H. discriminate.
    + unfold usage. discriminate.
  - split; [split; [reflexivity|intros _; lia]|reflexivity].
Qed.

(** ** The text at [segname] *)

Lemma c_string_stops (a b : list byte) :
  In x00 a -> c_string (a ++ b) = c_string a.
Proof.
  induction a as [|x a IH]; intros H; [destruct H|].
  cbn [app c_string]. destruct (Byte.eqb x x00) eqn:E; [reflexivity|].
  destruct H as [->|H]; [discriminate E|]. now rewrite IH.
Qed.

Lemma c_string_runs_on (a b : list byte) :
  ~ In x00 a -> c_string (a ++ b) = (c_string a ++ c_string b)%string.
Proof.
  induction a as [|x a IH]; intros H; [reflexivity|].
  cbn [app c_string]. destruct (Byte.eqb x x00) eqn:E.
  - exfalso. apply H. left. now apply Byte.byte_dec_bl in E.
  - cbn [append]. rewrite IH; [reflexivity|].
    intros Hin. apply H. now right.
Qed.

Lemma Z_to_le_top (n : nat) : forall z,
  0 <= z < 256 ^ Z.of_nat n -> In x00 (Z_to_le (S n) z).
Proof.
  induction n as [|n IH]; intros z Hz.
  - replace z with 0 by (cbn in Hz; lia). left. reflexivity.
  - right. apply IH. rewrite Nat2Z.inj_succ, Z.pow_succ_r in Hz by lia.
    split; [apply Z.div_pos; lia|].
    apply Z.div_lt_upper_bound; lia.
Qed.

(** X11.  The text shown at [segname] is the bytes up to the first
    NUL: the bytes of the name before its NUL when it has one; when the
    sixteen bytes of the name have none, the text runs on into the
    member that follows, and shows the bytes of [vmaddr] up to their
    first NUL as part of the name. *)
Theorem segname_text (c : load_command_t) (s : segment_command_64_t) :
  (In x00 (segname s) ->
   In (segname_line (c_string (segname s))) (print_segment c s)) /\
  (~ In x00 (segname s) -> 0 <= vmaddr s < 256 ^ 7 ->
   In (segname_line (c_string (segname s) ++
                     c_string (Z_to_le 8 (vmaddr s))))
      (print_segment c s)).
Proof.
  unfold print_segment, segname_line, segname_memory, encode_segment_fields.
  split.
  - intros H. right. left. now rewrite c_string_stops.
  - intros H Hv. right. left.
    rewrite c_string_runs_on by exact H.
    rewrite c_string_stops; [reflexivity|].
    now apply (Z_to_le_top 7).
Qed.

(** ** A file that holds all it declares *)








(** ** Cardinality *)

Lemma length_encode_section (s : section_64_t) :
  section_ok s -> length (encode_section s) = 80%nat.
Proof.
  intros (H1 & H2 & _). unfold encode_section.
  rewrite !length_app, !length_Z_to_le, H1, H2. reflexivity.
Qed.

Lemma length_encode_sections (ss : list section_64_t) :
  Forall section_ok ss ->
  length (encode_sections ss) = (80 * length ss)%nat.
Proof.
  unfold encode_sections. induction 1 as [|s ss Hs _ IH]; [reflexivity|].
  cbn [flat_map length].
  rewrite length_app, (length_encode_section s Hs), IH. lia.
Qed.

Lemma length_encode_segment (s : segment_command_64_t) :
  segment_ok s ->
  length (encode_segment s) = (64 + 80 * length (sections s))%nat.
Proof.
  intros (H1 & H). unfold encode_segment, encode_segment_fields.
  rewrite !length_app, !length_Z_to_le, H1, length_encode_sections; [lia|].
  apply H.
Qed.

Lemma forget_segment (c' c : load_command_t) (s : segment_command_64_t) :
  forget_symbols c' = c -> body c = cmd_seg_64 s -> c' = c.
Proof.
  unfold forget_symbols. destruct (body c') eqn:Hb; intros <- H;
    try reflexivity.
  cbn [body] in H. discriminate H.
Qed.

Lemma commands_tracked (data : list byte) (o : mach_object_file_t)
  (g : FILE) :
  parse_file data = Done o g ->
  exists f2,
    track (fopen data)
      (encode_header o ++ encode_commands (map forget_symbols (commands o)))
      f2.
Proof.
  intros E.
  destruct (parse_file_run data o g E)
    as (h & f1 & cs & f2 & Eh & _ & _ & Ec & Hcs & _ & _ & Er & Ho).
  destruct (resolve_symtab_decoded cs _ f2 g Hcs Er) as [_ Hmap].
  pose proof (read_header_track (fopen data) [] (fun _ _ => True)
                (fopen data) (track_start _)) as T1.
  rewrite Eh in T1.
  pose proof (read_commands_track (Z.to_nat (number_of_load_commands h))
                (fopen data) _ f1 T1) as T2.
  rewrite Ec in T2. exists f2. rewrite Hmap, Ho. exact T2.
Qed.

(** C5.  Cardinality.  Whenever [parse_file] returns, the count in the
    decoded header is word 4 of the file, there are exactly that many
    load commands, every segment command has exactly [nsects] sections,
    and, if the file is as long as the decoded structures take, it
    begins with the bytes of the header and of the commands, each
    segment followed by its sections: the commands and the sections
    are the ones of the stream.  On a stream made of a header that
    counts [k] commands and of [k] well-formed commands, [parse_file]
    returns, with [k] commands, and every segment written with [n]
    sections is among them, with these [n] sections.  A segment that
    declares [n] sections is read with its [n] sections, one after the
    other and each member in the order of its declaration, from
    [64 + 80 * n] bytes of the stream: from 64 bytes, and no section
    byte, when [n] is 0, the section loop leaving the stream as it
    is. *)
Theorem cardinality :
  (forall data o g,
     parse_file data = Done o g ->
     number_of_load_commands o = header_word data 4 /\
     length (commands o) = Z.to_nat (header_word data 4) /\
     (forall c s, In c (commands o) -> body c = cmd_seg_64 s ->
                  Z.of_nat (length (sections s)) = nsects s) /\
     ((32 + length (encode_commands (map forget_symbols (commands o))) <=
       length data)%nat ->
      firstn (32 + length (encode_commands
                             (map forget_symbols (commands o)))) data =
      encode_header o ++
      encode_commands (map forget_symbols (commands o)))) /\
  (forall h cs tail,
     header_ok h -> Forall well_formed cs ->
     number_of_load_commands h = Z.of_nat (length cs) ->
     exists o g,
       parse_file (encode_header h ++ encode_commands cs ++ tail) =
       Done o g /\
       length (commands o) = length cs /\
       (forall c s, In c cs -> body c = cmd_seg_64 s ->
                    In c (commands o) /\
                    Z.of_nat (length (sections s)) = nsects s)) /\
  (forall s,
     segment_ok s -> nsects s = Z.of_nat (length (sections s)) ->
     reads read_segment (encode_segment s) s /\
     length (encode_segment s) = (64 + 80 * length (sections s))%nat) /\
  (forall f, read_sections 0 f = Done [] f).
Proof.
  split; [|split; [|split]]; [| | |reflexivity].
  - intros data o g E.
    destruct (parse_file_decoded data o g E) as (_ & Hlen & Hdec).
    assert (Hn : number_of_load_commands o = header_word data 4).
    { rewrite parse_file_unfold in E.
      destruct (read_commands _ _) as [cs f2|t f2]; [|discriminate].
      destruct (resolve_symtab cs f2) as [cs' g'|t g']; [|discriminate].
      injection E as <- _. reflexivity. }
    split; [exact Hn|]. split; [now rewrite <- Hn|]. split.
    + intros c s Hc Hb. rewrite Forall_forall in Hdec.
      destruct (Hdec c Hc) as (_ & _ & Hs). rewrite Hb in Hs.
      now rewrite Hs.
    + intros Hfit. destruct (commands_tracked data o g E) as (f2 & _ & T).
      cbn [fopen pos contents] in T.
      rewrite length_app, length_encode_header in T.
      destruct (T Hfit) as [_ T']. exact T'.
  - intros h cs tail Hh Hcs Hn.
    destruct (parse_well_formed h cs tail Hh Hcs Hn) as (cs' & f & E & Hmap).
    exists (set_commands h cs'), f. split; [exact E|].
    cbn [set_commands commands].
    split; [now rewrite <- Hmap, length_map|].
    intros c s Hc Hb. split.
    + rewrite <- Hmap in Hc. apply in_map_iff in Hc as (c' & Hc' & Hin).
      now rewrite <- (forget_segment c' c s Hc' Hb).
    + rewrite Forall_forall in Hcs.
      destruct (Hcs c Hc) as (_ & _ & _ & Hs). rewrite Hb in Hs.
      now rewrite Hs.
  - intros s Hs Hn. split; [now apply reads_segment|].
    now apply length_encode_segment.
Qed.

End Decoder.

(** ** Two runs, each with its own uninitialised storage *)

Section TwoRuns.

(** What the locals of the first and of the second run hold before they
    are written. *)
Variables stale1 stale2 : nat -> byte.
Variables LC_SEGMENT_64 LC_BUILD_VERSION : Z.
Hypothesis tags_ok : tags_distinct LC_SEGMENT_64 LC_BUILD_VERSION.

Local Abbreviation well_formed' := (well_formed LC_SEGMENT_64 LC_BUILD_VERSION).
Local Abbreviation parse_file1 :=
  (parse_file stale1 LC_SEGMENT_64 LC_BUILD_VERSION).
Local Abbreviation parse_file2 :=
  (parse_file stale2 LC_SEGMENT_64 LC_BUILD_VERSION).




End TwoRuns.

(** ** The decoder with the tags of Apple's <mach-o/loader.h>

    [LC_SEGMENT_64] is [0x19] and [LC_BUILD_VERSION] is [0x32] there.
    Uninitialised storage is taken to hold zero bytes in the runs
    below; none of them reads a byte of it. *)

Definition loader_LC_SEGMENT_64 : Z := 0x19.
Definition loader_LC_BUILD_VERSION : Z := 0x32.
Definition zero_fill : nat -> byte := fun _ => x00.

Abbreviation zd_parse_file :=
  (parse_file zero_fill loader_LC_SEGMENT_64 loader_LC_BUILD_VERSION).

Abbreviation zd_pretty_print :=
  (pretty_print loader_LC_SEGMENT_64 loader_LC_BUILD_VERSION).

Abbreviation zd_well_formed :=
  (well_formed loader_LC_SEGMENT_64 loader_LC_BUILD_VERSION).

Definition the_object (r : outcome mach_object_file_t) : mach_object_file_t :=
  match r with
  | Done o _ => o
  | Exit _ _ => header_of []
  end.

Definition the_stream {A} (r : outcome A) : FILE :=
  match r with
  | Done _ f => f
  | Exit _ f => f
  end.

(** *** Sample files *)

Definition name16 (text : list byte) : list byte :=
  text ++ repeat x00 (16 - length text).

Definition sample_header (ncmds : Z) : mach_object_file_t :=
  {| magic := 0xfeedfacf; cpu_type := 0x0100000c; cpu_subtype := 0;
     file_type := 1; number_of_load_commands := ncmds;
     size_of_load_commands := 176; flags := 0x2000; reserved := 0;
     commands := [] |}.

Definition sample_section (address : Z) : section_64_t :=
  {| sectname := name16 [x5f; x5f; x74; x65; x78; x74];
     sect_segname := name16 [x5f; x5f; x54; x45; x58; x54];
     addr := address; size := 52; offset := 448; align := 2; reloff := 504;
     nreloc := 2; sect_flags := 0x80000400; reserved1 := 0; reserved2 := 0;
     reserved3 := 0 |}.

Definition sample_segment (address : Z) : load_command_t :=
  {| cmd := 0x19; cmd_size := 152;
     body := cmd_seg_64
               {| segname := name16 [x5f; x5f; x54; x45; x58; x54];
                  vmaddr := 0; vmsize := 52; fileoff := 448; filesize := 52;
                  maxprot := 7; initprot := 7; nsects := 1; seg_flags := 0;
                  sections := [sample_section address] |} |}.

Definition sample_symtab (size_field entries_at strings_at : Z)
  : load_command_t :=
  {| cmd := 0x2; cmd_size := size_field;
     body := cmd_symtab
               {| symoff := entries_at; nsyms := 1; stroff := strings_at;
                  strsize := 4; string_table := None;
                  symbol_table := None |} |}.

Definition sample_build_version : load_command_t :=
  {| cmd := 0x32; cmd_size := 24;
     body := cmd_build_version
               {| platform := 1; minos := 0xd0000; sdk := 0xd0300;
                  ntools := 0 |} |}.

Definition sample_entry_at (value : Z) : nlist_64_t :=
  {| n_strx := 1; n_type := 0xf; n_sect := 1; n_desc := 0; n_value := value |}.

Definition sample_entry : nlist_64_t := sample_entry_at 0.

(** The entry at offset 208, the string table at offset 224. *)
Definition sample_tail : list byte :=
  encode_entry sample_entry ++ [x00; x5f; x66; x00].

(** A header, a segment with one section, a symbol table command, one
    symbol entry and a string table of four bytes. *)
Definition sample_file : list byte :=
  encode_header (sample_header 2) ++
  encode_commands [sample_segment 0; sample_symtab 24 208 224] ++ sample_tail.

Definition sample_object : mach_object_file_t :=
  Eval vm_compute in the_object (zd_parse_file sample_file).

Definition sample_stream : FILE :=
  Eval vm_compute in the_stream (zd_parse_file sample_file).

(** Two symbol table commands; the second points at offset 0. *)
Definition two_symtabs_file : list byte :=
  encode_header (sample_header 2) ++
  encode_commands [sample_symtab 24 80 96; sample_symtab 24 0 16] ++
  encode_entry sample_entry ++ [x00; x5f; x66; x00].

Definition two_symtabs_object : mach_object_file_t :=
  Eval vm_compute in the_object (zd_parse_file two_symtabs_file).

Definition two_symtabs_stream : FILE :=
  Eval vm_compute in the_stream (zd_parse_file two_symtabs_file).

(** The first three bytes of a file. *)
Definition three_bytes : list byte := [xcf; xfa; xed].

(** The sample file with another value in its symbol entry. *)
Definition other_entry_file : list byte :=
  encode_header (sample_header 2) ++
  encode_commands [sample_segment 0; sample_symtab 24 208 224] ++
  encode_entry (sample_entry_at 4096) ++ [x00; x5f; x66; x00].

Definition other_entry_object : mach_object_file_t :=
  Eval vm_compute in the_object (zd_parse_file other_entry_file).

Definition other_entry_stream : FILE :=
  Eval vm_compute in the_stream (zd_parse_file other_entry_file).



(** The sample commands with other declared sizes. *)
Definition resized_commands : list load_command_t :=
  [set_cmd_size 0 (sample_segment 0); sample_symtab 0xffffffff 208 224].










Abbreviation zd_main :=
  (main zero_fill loader_LC_SEGMENT_64 loader_LC_BUILD_VERSION).

Abbreviation zd_read_commands :=
  (read_commands zero_fill loader_LC_SEGMENT_64 loader_LC_BUILD_VERSION).

(** The symbol table command of the sample file, as decoded, without
    and with its symbol entries. *)
Definition sample_symtab_fields : symtab_command_t :=
  {| symoff := 208; nsyms := 1; stroff := 224; strsize := 4;
     string_table := None; symbol_table := None |}.

Definition sample_symtab_resolved : symtab_command_t :=
  {| symoff := 208; nsyms := 1; stroff := 224; strsize := 4;
     string_table := None; symbol_table := Some [sample_entry] |}.

(** A build version command, then a command with the tag [0x1b]. *)
Definition unknown_tag_file : list byte :=
  encode_header (sample_header 2) ++ encode_commands [sample_build_version] ++
  Z_to_le 4 0x1b ++ [x18; x00; x00; x00; x01; x02].

Definition unknown_tag_stream : FILE :=
  Eval vm_compute in the_stream (zd_parse_file unknown_tag_file).

(** The stream of the sample file after its header. *)
Definition after_header : FILE :=
  {| contents := sample_file; pos := 32; log := header_events |}.

Definition after_commands : FILE :=
  Eval vm_compute in the_stream (zd_read_commands 2%nat after_header).

(** The only file there is. *)
Definition one_file (data : list byte) : string -> option (list byte) :=
  fun _ => Some data.

(** A segment whose name fills its sixteen bytes, at the address
    [0x42]. *)
Definition full_name_segment : segment_command_64_t :=
  {| segname := repeat x41 16; vmaddr := 0x42; vmsize := 52; fileoff := 448;
     filesize := 52; maxprot := 7; initprot := 7; nsects := 0;
     seg_flags := 0; sections := [] |}.

Definition sample_segment_body : segment_command_64_t :=
  {| segname := name16 [x5f; x5f; x54; x45; x58; x54];
     vmaddr := 0; vmsize := 52; fileoff := 448; filesize := 52;
     maxprot := 7; initprot := 7; nsects := 1; seg_flags := 0;
     sections := [sample_section 0] |}.

(** The object the sample file decodes to. *)
Definition sample_decoded : mach_object_file_t :=
  set_commands (sample_header 2)
    [sample_segment 0;
     attach (sample_symtab 24 208 224) sample_symtab_fields [sample_entry]].


Ltac concrete :=
  repeat first [split | apply Forall_cons | apply Forall_nil];
  vm_compute; try first [reflexivity | discriminate | intuition discriminate].

Lemma loader_tags :
  tags_distinct loader_LC_SEGMENT_64 loader_LC_BUILD_VERSION.
Proof. concrete. Qed.

Lemma sample_file_decodes :
  zd_parse_file sample_file = Done sample_object sample_stream.
Proof. vm_compute. reflexivity. Qed.

Lemma two_symtabs_file_decodes :
  zd_parse_file two_symtabs_file = Done two_symtabs_object two_symtabs_stream.
Proof. vm_compute. reflexivity. Qed.


(** *** The theorems at the sample files *)

Lemma decode_round_trip_witness :
  header_ok (sample_header 2) /\
  Forall zd_well_formed [sample_segment 0; sample_symtab 24 208 224] /\
  number_of_load_commands (sample_header 2) = 2 /\
  exists o f,
    zd_parse_file sample_file = Done o f /\
    set_commands o [] = set_commands (sample_header 2) [] /\
    length (commands o) = 2%nat /\
    map forget_symbols (commands o) =
    [sample_segment 0; sample_symtab 24 208 224].
Proof.
  assert (H1 : header_ok (sample_header 2)) by concrete.
  assert (H2 : Forall zd_well_formed [sample_segment 0; sample_symtab 24 208 224])
    by concrete.
  split; [exact H1|]. split; [exact H2|]. split; [reflexivity|].
  exact (decode_round_trip zero_fill _ _ loader_tags (sample_header 2)
           [sample_segment 0; sample_symtab 24 208 224] sample_tail
           H1 H2 eq_refl).
Defined.

(** C2 as the specification states it fails: a file that ends inside
    [magic] is decoded, to a header whose missing bytes are zero. *)
Lemma truncated_header_decodes :
  exists o f,
    zd_parse_file three_bytes = Done o f /\
    magic o = 0xedfacf /\ cpu_type o = 0 /\ number_of_load_commands o = 0 /\
    commands o = [].
Proof. eexists _, _. vm_compute. repeat split. Qed.

Lemma truncation_not_detected_witness :
  (length three_bytes <= 16)%nat /\
  number_of_load_commands (header_of three_bytes) = 0 /\
  zd_parse_file three_bytes =
  Done (header_of three_bytes)
       {| contents := three_bytes; pos := length three_bytes;
          log := header_events |}.
Proof.
  assert (H : (length three_bytes <= 16)%nat) by (vm_compute; lia).
  split; [exact H|].
  exact (proj2 (truncation_not_detected zero_fill _ _ loader_tags three_bytes)
           H).
Defined.

Lemma string_table_never_attached_witness :
  zd_parse_file sample_file = Done sample_object sample_stream /\
  exists c st,
    In c (commands sample_object) /\ body c = cmd_symtab st /\
    symbol_table st = Some [sample_entry] /\ string_table st = None.
Proof.
  split; [exact sample_file_decodes|].
  eexists _, _. split; [right; left; reflexivity|].
  split; [reflexivity|]. split; [reflexivity|].
  eapply (string_table_never_attached zero_fill _ _ loader_tags sample_file
            sample_object sample_stream _ _ sample_file_decodes).
  - right. left. reflexivity.
  - reflexivity.
Defined.

Lemma unknown_tag_rejected_witness :
  header_ok (sample_header 2) /\
  Forall zd_well_formed [sample_build_version] /\
  (length [sample_build_version] <
   Z.to_nat (number_of_load_commands (sample_header 2)))%nat /\
  u32_range 0x1b /\
  ~ recognized loader_LC_SEGMENT_64 loader_LC_BUILD_VERSION 0x1b /\
  exists f,
    zd_parse_file (encode_header (sample_header 2) ++
                   encode_commands [sample_build_version] ++
                   Z_to_le 4 0x1b ++ [x18; x00; x00; x00; x01; x02]) =
    Exit 0x1b f /\
    pos f = (32 + length (encode_commands [sample_build_version]) + 4 +
             Nat.min 4 (length [x18; x00; x00; x00; x01; x02]))%nat /\
    log f = io_read 4 :: io_read 4 ::
            commands_events [sample_build_version] ++ header_events.
Proof.
  assert (H1 : header_ok (sample_header 2)) by concrete.
  assert (H2 : Forall zd_well_formed [sample_build_version])
    by concrete.
  assert (H3 : (length [sample_build_version] <
                Z.to_nat (number_of_load_commands (sample_header 2)))%nat)
    by (vm_compute; lia).
  assert (H4 : u32_range 0x1b) by concrete.
  assert (H5 : ~ recognized loader_LC_SEGMENT_64 loader_LC_BUILD_VERSION 0x1b)
    by concrete.
  split; [exact H1|]. split; [exact H2|]. split; [exact H3|].
  split; [exact H4|]. split; [exact H5|].
  exact (unknown_tag_rejected zero_fill _ _ loader_tags (sample_header 2)
           [sample_build_version] 0x1b [x18; x00; x00; x00; x01; x02]
           H1 H2 H3 H4 H5).
Defined.

Lemma sample_file_decoded :
  zd_parse_file sample_file = Done sample_decoded sample_stream.
Proof. vm_compute. reflexivity. Qed.

Lemma cardinality_witness :
  zd_parse_file sample_file = Done sample_decoded sample_stream /\
  (32 + length (encode_commands
                  (map forget_symbols (commands sample_decoded))) <=
   length sample_file)%nat /\
  number_of_load_commands sample_decoded = header_word sample_file 4 /\
  length (commands sample_decoded) = Z.to_nat (header_word sample_file 4) /\
  (forall c s, In c (commands sample_decoded) -> body c = cmd_seg_64 s ->
               Z.of_nat (length (sections s)) = nsects s) /\
  firstn (32 + length (encode_commands
                         (map forget_symbols (commands sample_decoded))))
    sample_file =
  encode_header sample_decoded ++
  encode_commands (map forget_symbols (commands sample_decoded)) /\
  header_ok (sample_header 2) /\
  Forall zd_well_formed [sample_segment 0; sample_symtab 24 208 224] /\
  (exists o g,
     zd_parse_file sample_file = Done o g /\
     length (commands o) = 2%nat /\
     (forall c s, In c [sample_segment 0; sample_symtab 24 208 224] ->
                  body c = cmd_seg_64 s ->
                  In c (commands o) /\
                  Z.of_nat (length (sections s)) = nsects s)) /\
  segment_ok sample_segment_body /\
  (reads (read_segment zero_fill) (encode_segment sample_segment_body)
     sample_segment_body /\
   length (encode_segment sample_segment_body) = (64 + 80 * 1)%nat) /\
  segment_ok full_name_segment /\
  (reads (read_segment zero_fill) (encode_segment full_name_segment)
     full_name_segment /\
   length (encode_segment full_name_segment) = (64 + 80 * 0)%nat).
Proof.
  assert (H0 : (32 + length (encode_commands
                              (map forget_symbols (commands sample_decoded))) <=
                length sample_file)%nat) by (vm_compute; lia).
  assert (H1 : header_ok (sample_header 2)) by concrete.
  assert (H2 : Forall zd_well_formed
                 [sample_segment 0; sample_symtab 24 208 224]) by concrete.
  assert (H3 : segment_ok sample_segment_body) by concrete.
  assert (H4 : segment_ok full_name_segment) by concrete.
  destruct (cardinality zero_fill _ _ loader_tags) as (C1 & C2 & C3 & _).
  destruct (C1 sample_file sample_decoded sample_stream sample_file_decoded)
    as (A1 & A2 & A3 & A4).
  split; [exact sample_file_decoded|]. split; [exact H0|].
  split; [exact A1|]. split; [exact A2|]. split; [exact A3|].
  split; [exact (A4 H0)|].
  split; [exact H1|]. split; [exact H2|].
  split; [exact (C2 (sample_header 2)
                   [sample_segment 0; sample_symtab 24 208 224] sample_tail
                   H1 H2 eq_refl)|].
  split; [exact H3|].
  split; [exact (C3 sample_segment_body H3 eq_refl)|].
  split; [exact H4|]. exact (C3 full_name_segment H4 eq_refl).
Defined.

Lemma first_symtab_wins_witness :
  zd_parse_file two_symtabs_file =
  Done two_symtabs_object two_symtabs_stream /\
  commands two_symtabs_object =
  [] ++ attach (sample_symtab 24 80 96)
          {| symoff := 80; nsyms := 1; stroff := 96; strsize := 4;
             string_table := None; symbol_table := None |} [sample_entry]
     :: [sample_symtab 24 0 16] /\
  (exists st es,
      body (attach (sample_symtab 24 80 96)
              {| symoff := 80; nsyms := 1; stroff := 96; strsize := 4;
                 string_table := None; symbol_table := None |}
              [sample_entry]) = cmd_symtab st /\
      symbol_table st = Some es /\ length es = Z.to_nat (nsyms st) /\
      log two_symtabs_stream =
      resolve_events st ++ commands_events (commands two_symtabs_object) ++
      header_events /\
      seeks (log two_symtabs_stream) =
      [Z.to_nat (symoff st); Z.to_nat (stroff st)]) /\
  Forall unresolved [sample_symtab 24 0 16].
Proof.
  split; [exact two_symtabs_file_decodes|]. split; [reflexivity|].
  refine (first_symtab_wins zero_fill _ _ loader_tags two_symtabs_file
            two_symtabs_object two_symtabs_stream [] [sample_symtab 24 0 16] _
            two_symtabs_file_decodes eq_refl _ eq_refl).
  intros c [].
Defined.

Lemma no_symtab_no_op_witness :
  (forall c, In c [sample_build_version] -> cmd c <> LC_SYMTAB) /\
  resolve_symtab zero_fill [sample_build_version] (fopen three_bytes) =
  Done [sample_build_version] (fopen three_bytes).
Proof.
  assert (H : forall c, In c [sample_build_version] -> cmd c <> LC_SYMTAB).
  { intros c [<-|[]]. vm_compute. congruence. }
  split; [exact H|].
  exact (no_symtab_no_op zero_fill [sample_build_version] (fopen three_bytes) H).
Defined.

Lemma other_entry_file_decodes :
  zd_parse_file other_entry_file =
  Done other_entry_object other_entry_stream.
Proof. vm_compute. reflexivity. Qed.



(** C9 as the specification states it fails: two decoded objects that
    differ in the value of a symbol entry have the same report. *)
Lemma symbols_not_in_report :
  zd_parse_file sample_file = Done sample_object sample_stream /\
  zd_parse_file other_entry_file =
  Done other_entry_object other_entry_stream /\
  zd_pretty_print sample_object = zd_pretty_print other_entry_object /\
  commands sample_object <> commands other_entry_object.
Proof.
  split; [exact sample_file_decodes|].
  split; [exact other_entry_file_decodes|].
  split; [vm_compute; reflexivity|].
  vm_compute. intros H. discriminate H.
Qed.

Lemma report_shows_witness :
  zd_parse_file sample_file = Done sample_object sample_stream /\
  zd_parse_file other_entry_file = Done other_entry_object other_entry_stream /\
  zd_pretty_print sample_object = zd_pretty_print other_entry_object /\
  set_commands sample_object [] = set_commands other_entry_object [] /\
  Forall2 shown_alike (commands sample_object) (commands other_entry_object).
Proof.
  assert (H3 : zd_pretty_print sample_object =
               zd_pretty_print other_entry_object)
    by (vm_compute; reflexivity).
  split; [exact sample_file_decodes|].
  split; [exact other_entry_file_decodes|]. split; [exact H3|].
  exact (report_shows zero_fill _ _ loader_tags sample_file other_entry_file
           sample_object other_entry_object sample_stream other_entry_stream
           sample_file_decodes other_entry_file_decodes H3).
Defined.



(** *** The further theorems at the sample files *)

Lemma unknown_tag_file_exits :
  zd_parse_file unknown_tag_file = Exit 0x1b unknown_tag_stream.
Proof. vm_compute. reflexivity. Qed.

Lemma symbol_entries_decoded_witness :
  zd_parse_file sample_file = Done sample_object sample_stream /\
  commands sample_object =
  [sample_segment 0] ++
  attach (sample_symtab 24 208 224) sample_symtab_fields [sample_entry] :: [] /\
  Forall entry_ok [sample_entry] /\
  skipn (Z.to_nat (symoff sample_symtab_resolved)) sample_file =
  encode_entries [sample_entry] ++ [x00; x5f; x66; x00] /\
  symbol_table sample_symtab_resolved = Some [sample_entry] /\
  pos sample_stream =
  (Z.to_nat (symoff sample_symtab_resolved) + 16 * length [sample_entry])%nat.
Proof.
  assert (H1 : forall c, In c [sample_segment 0] -> cmd c <> LC_SYMTAB).
  { intros c [<-|[]]. vm_compute. congruence. }
  assert (H2 : Forall entry_ok [sample_entry]) by concrete.
  assert (H3 : skipn (Z.to_nat (symoff sample_symtab_resolved)) sample_file =
               encode_entries [sample_entry] ++ [x00; x5f; x66; x00])
    by (vm_compute; reflexivity).
  split; [exact sample_file_decodes|]. split; [reflexivity|].
  split; [exact H2|]. split; [exact H3|].
  exact (symbol_entries_decoded zero_fill _ _ loader_tags sample_file
           sample_object sample_stream [sample_segment 0] []
           (attach (sample_symtab 24 208 224) sample_symtab_fields
              [sample_entry])
           sample_symtab_resolved [sample_entry] [x00; x5f; x66; x00]
           sample_file_decodes eq_refl H1 eq_refl eq_refl H2 eq_refl H3).
Defined.

Lemma decoded_bytes_are_the_file_witness :
  zd_parse_file sample_file = Done sample_object sample_stream /\
  (32 + length (encode_commands
                  (map forget_symbols (commands sample_object))) <=
   length sample_file)%nat /\
  firstn (32 + length (encode_commands
                         (map forget_symbols (commands sample_object))))
    sample_file =
  encode_header sample_object ++
  encode_commands (map forget_symbols (commands sample_object)).
Proof.
  assert (H : (32 + length (encode_commands
                              (map forget_symbols (commands sample_object))) <=
               length sample_file)%nat) by (vm_compute; lia).
  split; [exact sample_file_decodes|]. split; [exact H|].
  exact (decoded_bytes_are_the_file zero_fill _ _ loader_tags sample_file
           sample_object sample_stream sample_file_decodes H).
Defined.

Lemma header_taken_as_it_stands_witness :
  zd_parse_file sample_file = Done sample_object sample_stream /\
  set_commands sample_object [] = header_of sample_file.
Proof.
  split; [exact sample_file_decodes|].
  exact (header_taken_as_it_stands zero_fill _ _ sample_file sample_object
           sample_stream sample_file_decodes).
Defined.

Lemma exit_trace_witness :
  zd_parse_file unknown_tag_file = Exit 0x1b unknown_tag_stream /\
  ~ recognized loader_LC_SEGMENT_64 loader_LC_BUILD_VERSION 0x1b /\
  u32_range 0x1b /\
  exists cs,
    Forall zd_well_formed cs /\
    (length cs <
     Z.to_nat (number_of_load_commands (header_of unknown_tag_file)))%nat /\
    log unknown_tag_stream =
    io_read 4 :: io_read 4 :: commands_events cs ++ header_events /\
    seeks (log unknown_tag_stream) = [] /\
    ((32 + length (encode_commands cs) + 8 <= length unknown_tag_file)%nat ->
     firstn (32 + length (encode_commands cs)) unknown_tag_file =
     encode_header (header_of unknown_tag_file) ++ encode_commands cs /\
     firstn 4 (skipn (32 + length (encode_commands cs)) unknown_tag_file) =
     Z_to_le 4 0x1b /\
     pos unknown_tag_stream = (32 + length (encode_commands cs) + 8)%nat).
Proof.
  split; [exact unknown_tag_file_exits|].
  exact (exit_trace zero_fill _ _ loader_tags unknown_tag_file 0x1b
           unknown_tag_stream unknown_tag_file_exits).
Defined.

Lemma report_depends_on_shown_witness :
  set_commands
    (set_commands (sample_header 2)
       [sample_segment 0; sample_symtab 24 208 224]) [] =
  set_commands (set_commands (sample_header 2) resized_commands) [] /\
  Forall2 shown_alike [sample_segment 0; sample_symtab 24 208 224]
    resized_commands /\
  zd_pretty_print
    (set_commands (sample_header 2)
       [sample_segment 0; sample_symtab 24 208 224]) =
  zd_pretty_print (set_commands (sample_header 2) resized_commands).
Proof.
  assert (H : Forall2 shown_alike [sample_segment 0; sample_symtab 24 208 224]
                resized_commands).
  { repeat first [apply Forall2_cons | apply Forall2_nil | split];
      vm_compute; reflexivity. }
  split; [reflexivity|]. split; [exact H|].
  exact (report_depends_on_shown _ _
           (set_commands (sample_header 2)
              [sample_segment 0; sample_symtab 24 208 224])
           (set_commands (sample_header 2) resized_commands) eq_refl H).
Defined.


Lemma after_header_decodes :
  zd_read_commands 2%nat after_header =
  Done [sample_segment 0; sample_symtab 24 208 224] after_commands.
Proof. vm_compute. reflexivity. Qed.

Lemma cursor_after_commands_witness :
  (pos after_header <= length (contents after_header))%nat /\
  zd_read_commands 2%nat after_header =
  Done [sample_segment 0; sample_symtab 24 208 224] after_commands /\
  pos after_commands =
  Nat.min
    (pos after_header +
     wire_sizes [sample_segment 0; sample_symtab 24 208 224])
    (length (contents after_header)).
Proof.
  assert (H : (pos after_header <= length (contents after_header))%nat)
    by (vm_compute; lia).
  split; [exact H|]. split; [exact after_header_decodes|].
  exact (cursor_after_commands zero_fill _ _ 2%nat after_header after_commands
           [sample_segment 0; sample_symtab 24 208 224] H
           after_header_decodes).
Defined.

Lemma main_reports_the_file_witness :
  header_ok (sample_header 2) /\
  Forall zd_well_formed [sample_segment 0; sample_symtab 24 208 224] /\
  one_file sample_file "a.o"%string = Some sample_file /\
  zd_main (one_file sample_file) "zd"%string ["a.o"%string] =
  {| stdout :=
       zd_pretty_print
         (set_commands (sample_header 2)
            [sample_segment 0; sample_symtab 24 208 224]);
     ending := Success |}.
Proof.
  assert (H1 : header_ok (sample_header 2)) by concrete.
  assert (H2 : Forall zd_well_formed
                 [sample_segment 0; sample_symtab 24 208 224]) by concrete.
  split; [exact H1|]. split; [exact H2|]. split; [reflexivity|].
  exact (main_reports_the_file zero_fill _ _ loader_tags
           (one_file sample_file) "zd"%string "a.o"%string (sample_header 2)
           [sample_segment 0; sample_symtab 24 208 224] sample_tail
           H1 H2 eq_refl eq_refl).
Defined.

Lemma unknown_tag_file_fails :
  ending (zd_main (one_file unknown_tag_file) "zd"%string ["a.o"%string]) =
  Failure.
Proof. vm_compute. reflexivity. Qed.

Lemma main_failure_witness :
  ending (zd_main (one_file unknown_tag_file) "zd"%string ["a.o"%string]) =
  Failure /\
  exists path data tag f,
    ["a.o"%string] = [path] /\
    one_file unknown_tag_file path = Some data /\
    zd_parse_file data = Exit tag f /\
    ~ recognized loader_LC_SEGMENT_64 loader_LC_BUILD_VERSION tag /\
    stdout (zd_main (one_file unknown_tag_file) "zd"%string ["a.o"%string]) =
    [unexpected_tag tag].
Proof.
  split; [exact unknown_tag_file_fails|].
  exact (main_failure zero_fill _ _ loader_tags (one_file unknown_tag_file)
           "zd"%string ["a.o"%string] unknown_tag_file_fails).
Defined.

Lemma main_usage_witness :
  length (@nil string) <> 1%nat /\
  stdout (zd_main (one_file sample_file) "zd"%string []) =
  usage "zd"%string /\
  ending (zd_main (one_file sample_file) "zd"%string []) = Success.
Proof.
  assert (H : length (@nil string) <> 1%nat) by (simpl; lia).
  split; [exact H|].
  split.
  - exact (proj1 (proj1 (main_usage zero_fill _ _ (one_file sample_file)
                           "zd"%string [])) H).
  - exact (proj2 (main_usage zero_fill _ _ (one_file sample_file)
                    "zd"%string []) H).
Defined.

Lemma segname_text_witness :
  In x00 (segname sample_segment_body) /\
  In (segname_line "__TEXT") (print_segment (sample_segment 0)
                                sample_segment_body) /\
  ~ In x00 (segname full_name_segment) /\
  0 <= vmaddr full_name_segment < 256 ^ 7 /\
  In (segname_line "AAAAAAAAAAAAAAAAB")
     (print_segment (sample_segment 0) full_name_segment).
Proof.
  assert (H1 : In x00 (segname sample_segment_body)).
  { vm_compute. do 6 right. left. reflexivity. }
  assert (H2 : ~ In x00 (segname full_name_segment)).
  { vm_compute. intuition discriminate. }
  assert (H3 : 0 <= vmaddr full_name_segment < 256 ^ 7)
    by (vm_compute; split; [discriminate|reflexivity]).
  split; [exact H1|]. split.
  - exact (proj1 (segname_text (sample_segment 0) sample_segment_body) H1).
  - split; [exact H2|]. split; [exact H3|].
    exact (proj2 (segname_text (sample_segment 0) full_name_segment) H2 H3).
Defined.
